(** * Sharkey enrollment: storage, authorization gate and host signing

    A shallow embedding of [pkg/server/storage/mysql.go] (the MySQL storage
    back end) and of the enrollment handler ([Enroll], [EnrollHost],
    [clientAuthenticated], [clientHostnameMatches], [signHost]).

    Go values are embedded as follows.
    - [string] and [[]byte] holding text are [string]; raw bytes are
      [list byte].
    - [(T, error)] is [result T]; an [error] alone is [option string]
      ([None] is [nil]); the text of an error is what [err.Error()] gives.
    - A run-time panic (nil dereference, index out of range) is the
      [Panics] constructor of [outcome].
    - [map[string]string] is [gmap string string].
    - The database behind [*sql.DB] is the record [DB]; [Exec] threads it
      explicitly. *)

From stdpp Require Import gmap strings list fin_maps pretty.
From Stdlib Require Import ZArith.
From Stdlib.Init Require Import Byte.

Open Scope Z_scope.

(** ** Results, errors and panics *)

Inductive result (A : Type) : Type :=
| Ok (a : A)
| Err (e : string).
Arguments Ok {A} a.
Arguments Err {A} e.

Inductive outcome (A : Type) : Type :=
| Returns (a : A)
| Panics (msg : string).
Arguments Returns {A} a.
Arguments Panics {A} msg.

Definition nil_deref : string :=
  "runtime error: invalid memory address or nil pointer dereference".
Definition index_out_of_range : string :=
  "runtime error: index out of range [0] with length 0".

(** The one-character string holding a line feed. *)
Definition newline : string := String (Ascii.ascii_of_nat 10) EmptyString.

(** [uint64(x)] for an [int64] value [x]. *)
Definition uint64 (x : Z) : Z := x mod 2 ^ 64.

(** ** The functions of Go's [strings] package that the code calls *)

Module strings.

(** [s[a:]] and [s[:b]]. *)
Definition slice_from (a : nat) (s : string) : string :=
  String.substring a (String.length s - a) s.
Definition slice_to (b : nat) (s : string) : string :=
  String.substring 0 b s.

(** [len(s) >= len(suffix) && s[len(s)-len(suffix):] == suffix] *)
Definition HasSuffix (s suffix : string) : bool :=
  bool_decide (String.length suffix ≤ String.length s)%nat
  && bool_decide
       (slice_from (String.length s - String.length suffix) s = suffix).

Definition TrimSuffix (s suffix : string) : string :=
  if HasSuffix s suffix
  then slice_to (String.length s - String.length suffix) s
  else s.

Fixpoint contains_char (cutset : string) (c : Ascii.ascii) : bool :=
  match cutset with
  | EmptyString => false
  | String d rest => bool_decide (c = d) || contains_char rest c
  end.

(** [TrimLeft(s, cutset)]: drop the leading characters that occur in
    [cutset]. *)
Fixpoint TrimLeft (s cutset : string) : string :=
  match s with
  | EmptyString => EmptyString
  | String c rest =>
      if contains_char cutset c then TrimLeft rest cutset else s
  end.

Fixpoint Join (elems : list string) (sep : string) : string :=
  match elems with
  | [] => EmptyString
  | [e] => e
  | e :: rest => e +:+ sep +:+ Join rest sep
  end.

End strings.

(** ** [golang.org/x/crypto/ssh]: constants and the public key interface *)

Module ssh.

Definition UserCert : Z := 1.
Definition HostCert : Z := 2.

(** What the code uses of the [PublicKey] interface: [Type()] and
    [Marshal()]. *)
Record PublicKey : Type := {
  Type_ : string;
  Marshal : list byte
}.

End ssh.

(** ** The database behind [*sql.DB] *)

Inductive driver : Type := SQLiteDriver | MySQLDriver.

(** Modelled from the spec: the schema is created by migrations that are not
    part of the sources.  [hostkeys] is "a table keyed by (principal,
    certType) storing pubkey as an authorized-key-format string and a
    backend-assigned identifier"; a row written without a [cert_type] gets
    the column default, the host type. *)
Record hostkey : Type := {
  hk_id : Z;
  hk_hostname : string;
  hk_pubkey : string;
  hk_cert_type : string
}.

Definition mysqlHostCert : string := "host_cert".
Definition mysqlUserCert : string := "user_cert".
Definition cert_type_default : string := mysqlHostCert.

(** [github_user_mappings] is "a second table mapping external identity
    strings to usernames", keyed by [sso_identity].

    [db_faults] scripts the connection: each round trip consumes the head;
    [Some e] makes that round trip fail with the driver error [e] before
    the statement reaches the server. *)
Record DB : Type := {
  db_driver : driver;
  hostkeys : list hostkey;
  hostkeys_auto_increment : Z;
  github_user_mappings : gmap string string;
  db_faults : list (option string)
}.

Definition with_hostkeys (rows : list hostkey) (next : Z) (db : DB) : DB :=
  {| db_driver := db_driver db;
     hostkeys := rows;
     hostkeys_auto_increment := next;
     github_user_mappings := github_user_mappings db;
     db_faults := db_faults db |}.

Definition with_mappings (m : gmap string string) (db : DB) : DB :=
  {| db_driver := db_driver db;
     hostkeys := hostkeys db;
     hostkeys_auto_increment := hostkeys_auto_increment db;
     github_user_mappings := m;
     db_faults := db_faults db |}.

Definition with_faults (fs : list (option string)) (db : DB) : DB :=
  {| db_driver := db_driver db;
     hostkeys := hostkeys db;
     hostkeys_auto_increment := hostkeys_auto_increment db;
     github_user_mappings := github_user_mappings db;
     db_faults := fs |}.

(** [sql.Result]; both drivers answer [LastInsertId()] from the stored
    value with a nil error. *)
Record sql_Result : Type := {
  insertId : Z;
  affectedRows : Z
}.

Definition LastInsertId (r : sql_Result) : result Z := Ok (insertId r).

Definition syntax_error : string :=
  "Error 1064: You have an error in your SQL syntax".
Definition sqlite_syntax_error : string := "SQL logic error: syntax error".

(** *** Statement texts

    The texts the code sends.  The two [github_user_mappings] statements are
    built with [fmt.Sprintf] from a joined list of placeholders. *)

Definition stmt_record_issuance : string :=
  "INSERT INTO hostkeys (hostname, pubkey, cert_type) VALUES (?, ?, ?) ON DUPLICATE KEY UPDATE pubkey = ?".
Definition stmt_enroll_mysql : string :=
  "INSERT INTO hostkeys (hostname, pubkey) VALUES (?, ?) ON DUPLICATE KEY UPDATE pubkey = ?".
Definition stmt_enroll_sqlite : string :=
  "INSERT OR REPLACE INTO hostkeys (hostname, pubkey) VALUES (?, ?)".

Definition delete_stmt_of (deleteEntries : list string) : string :=
  "DELETE FROM github_user_mappings WHERE sso_identity NOT IN ("
  +:+ strings.Join deleteEntries "," +:+ ")".
Definition insert_stmt_of (insertEntries : list string) : string :=
  "REPLACE INTO github_user_mappings (sso_identity, github_username) VALUES "
  +:+ strings.Join insertEntries ",".

(** *** The server's reading of a statement

    Of each dialect only the statements above are recognised.  MySQL's
    grammar wants at least one expression in an [IN (...)] list and at least
    one row after [VALUES]; any other text is a syntax error. *)

Inductive statement : Type :=
| UpsertHostkeyTyped
| UpsertHostkey
| ReplaceHostkey
| DeleteMappingsNotIn (n : nat)
| ReplaceMappings (n : nat).

Definition find_count (text_of : nat → string) (query : string) : option nat :=
  List.find (λ n, bool_decide (query = text_of n))
            (seq 1 (String.length query)).

Definition mysql_parse (query : string) : option statement :=
  if bool_decide (query = stmt_record_issuance) then Some UpsertHostkeyTyped
  else if bool_decide (query = stmt_enroll_mysql) then Some UpsertHostkey
  else
    match find_count (λ n, delete_stmt_of (replicate n "?")) query with
    | Some n => Some (DeleteMappingsNotIn n)
    | None =>
        match find_count (λ n, insert_stmt_of (replicate n "(?, ?)")) query with
        | Some n => Some (ReplaceMappings n)
        | None => None
        end
    end.

Definition sqlite_parse (query : string) : option statement :=
  if bool_decide (query = stmt_enroll_sqlite) then Some ReplaceHostkey
  else None.

Definition placeholders (st : statement) : nat :=
  match st with
  | UpsertHostkeyTyped => 4
  | UpsertHostkey => 3
  | ReplaceHostkey => 2
  | DeleteMappingsNotIn n => n
  | ReplaceMappings n => 2 * n
  end.

Definition wrong_arg_count (want got : nat) : string :=
  "sql: expected " +:+ pretty want +:+ " arguments, got " +:+ pretty got.

(** *** Row operations on [hostkeys] *)

Definition same_key (h t : string) (r : hostkey) : bool :=
  bool_decide (hk_hostname r = h) && bool_decide (hk_cert_type r = t).

Definition set_pubkey (k : string) (r : hostkey) : hostkey :=
  {| hk_id := hk_id r; hk_hostname := hk_hostname r;
     hk_pubkey := k; hk_cert_type := hk_cert_type r |}.

(** [INSERT ... VALUES (h, k, t) ON DUPLICATE KEY UPDATE pubkey = k'] on
    MySQL.  A new row takes the next AUTO_INCREMENT value, which is reported
    as the insert id.  On a duplicate key the row keeps its id and gets the
    new [pubkey]; the insert id reported is the id of that row when the row
    changed (2 rows affected) and 0 when it was set to its current values
    (0 rows affected). *)
Definition mysql_upsert_hostkey (h k t k' : string) (db : DB)
  : sql_Result * DB :=
  match List.find (same_key h t) (hostkeys db) with
  | None =>
      let id := hostkeys_auto_increment db in
      let row := {| hk_id := id; hk_hostname := h;
                    hk_pubkey := k; hk_cert_type := t |} in
      ({| insertId := id; affectedRows := 1 |},
       with_hostkeys (hostkeys db ++ [row]) (id + 1) db)
  | Some r =>
      if bool_decide (hk_pubkey r = k')
      then ({| insertId := 0; affectedRows := 0 |}, db)
      else
        ({| insertId := hk_id r; affectedRows := 2 |},
         with_hostkeys
           (List.map (λ x, if same_key h t x then set_pubkey k' x else x)
                     (hostkeys db))
           (hostkeys_auto_increment db) db)
  end.

(** [INSERT OR REPLACE ... VALUES (h, k)] on SQLite: the rows in conflict
    on the key are deleted and a new row is inserted under a new rowid. *)
Definition sqlite_replace_hostkey (h k : string) (db : DB)
  : sql_Result * DB :=
  let id := hostkeys_auto_increment db in
  let row := {| hk_id := id; hk_hostname := h;
                hk_pubkey := k; hk_cert_type := cert_type_default |} in
  ({| insertId := id; affectedRows := 1 |},
   with_hostkeys
     (List.filter (λ x, negb (same_key h cert_type_default x)) (hostkeys db)
      ++ [row])
     (id + 1) db).

(** [DELETE FROM github_user_mappings WHERE sso_identity NOT IN (ids)] *)
Definition delete_mappings_not_in (ids : list string) (db : DB)
  : sql_Result * DB :=
  let kept := filter (λ kv, kv.1 ∈ ids) (github_user_mappings db) in
  ({| insertId := 0;
      affectedRows :=
        Z.of_nat (size (github_user_mappings db) - size kept) |},
   with_mappings kept db).

(** [REPLACE INTO github_user_mappings (...) VALUES (i1, u1), (i2, u2), ...]:
    the flat argument list is read two by two, rows applied left to
    right. *)
Fixpoint replace_mappings (args : list string) (m : gmap string string)
  : gmap string string :=
  match args with
  | i :: u :: rest => replace_mappings rest (<[i := u]> m)
  | _ => m
  end.

Definition run_statement (st : statement) (args : list string) (db : DB)
  : result sql_Result * DB :=
  match st, args with
  | UpsertHostkeyTyped, [h; k; t; k'] =>
      let '(r, db') := mysql_upsert_hostkey h k t k' db in (Ok r, db')
  | UpsertHostkey, [h; k; k'] =>
      let '(r, db') := mysql_upsert_hostkey h k cert_type_default k' db in
      (Ok r, db')
  | ReplaceHostkey, [h; k] =>
      let '(r, db') := sqlite_replace_hostkey h k db in (Ok r, db')
  | DeleteMappingsNotIn _, ids =>
      let '(r, db') := delete_mappings_not_in ids db in (Ok r, db')
  | ReplaceMappings n, _ =>
      (Ok {| insertId := 0; affectedRows := Z.of_nat n |},
       with_mappings (replace_mappings args (github_user_mappings db)) db)
  | _, _ => (Err (wrong_arg_count (placeholders st) (length args)), db)
  end.

(** [db.Exec(query, args...)] *)
Definition Exec (query : string) (args : list string) (db : DB)
  : result sql_Result * DB :=
  match db_faults db with
  | Some e :: rest => (Err e, with_faults rest db)
  | faults =>
      let db := with_faults (tail faults) db in
      let parsed :=
        match db_driver db with
        | MySQLDriver => mysql_parse query
        | SQLiteDriver => sqlite_parse query
        end in
      match parsed with
      | None =>
          (Err match db_driver db with
               | MySQLDriver => syntax_error
               | SQLiteDriver => sqlite_syntax_error
               end, db)
      | Some st =>
          if bool_decide (length args = placeholders st)
          then run_statement st args db
          else (Err (wrong_arg_count (placeholders st) (length args)), db)
      end
  end.

(** *** Queries *)

Definition stmt_query_hostkeys : string :=
  "SELECT hostname, pubkey FROM hostkeys WHERE cert_type = ?".
Definition stmt_query_mapping : string :=
  "SELECT github_username FROM github_user_mappings WHERE sso_identity = ?".

(** [sql.ErrNoRows] *)
Definition ErrNoRows : string := "sql: no rows in result set".

Definition hostkey_columns (r : hostkey) : list string :=
  [hk_hostname r; hk_pubkey r].

(** [db.Query(query, args...)]: the selected rows, each the list of its
    columns, in table order.  The two SELECT statements read alike in both
    dialects; a query changes no table. *)
Definition Query (query : string) (args : list string) (db : DB)
  : result (list (list string)) * DB :=
  match db_faults db with
  | Some e :: rest => (Err e, with_faults rest db)
  | faults =>
      let db := with_faults (tail faults) db in
      if bool_decide (query = stmt_query_hostkeys) then
        match args with
        | [t] =>
            (Ok (hostkey_columns
                   <$> List.filter (λ r, bool_decide (hk_cert_type r = t))
                                   (hostkeys db)), db)
        | _ => (Err (wrong_arg_count 1 (length args)), db)
        end
      else if bool_decide (query = stmt_query_mapping) then
        match args with
        | [i] =>
            (Ok match github_user_mappings db !! i with
                | Some u => [[u]]
                | None => []
                end, db)
        | _ => (Err (wrong_arg_count 1 (length args)), db)
        end
      else
        (Err match db_driver db with
             | MySQLDriver => syntax_error
             | SQLiteDriver => sqlite_syntax_error
             end, db)
  end.

(** ** Transport state, certificates, the signer and the entropy source *)

Module x509.
(** A verified client certificate; only [VerifyHostname] looks inside. *)
Record Certificate : Type := {
  Subject : string;
  DNSNames : list string
}.
End x509.

Module tls.
Record ConnectionState : Type := {
  VerifiedChains : list (list x509.Certificate)
}.
End tls.

(** [io.ReadFull(src, buf)] with [len(buf) = n]: all [n] bytes or an
    error.  [crypto/rand.Read] is [io.ReadFull] over [rand.Reader]; the
    reader is the list of bytes the source can still deliver. *)
Definition ReadFull (n : nat) (src : list byte) : result (list byte) * list byte :=
  if bool_decide (n ≤ length src)%nat
  then (Ok (take n src), drop n src)
  else (Err (match src with [] => "EOF" | _ => "unexpected EOF" end), []).

Module sshcert.

(** The fields of [ssh.Certificate] that [signHost] and [SignCert] set. *)
Record Certificate : Type := {
  Nonce : list byte;
  Key : ssh.PublicKey;
  Serial : Z;
  CertType : Z;
  KeyId : string;
  ValidPrincipals : list string;
  ValidAfter : Z;
  ValidBefore : Z;
  SignatureKey : option ssh.PublicKey;
  Signature : option (list byte)
}.

(** The [ssh.Signer] interface. *)
Record Signer : Type := {
  PublicKey : ssh.PublicKey;
  Sign : list byte → list byte → result (list byte) * list byte
}.

End sshcert.

(** Library functions the code calls and whose results it only passes on. *)
Class Libraries : Type := {
  (** [base64.StdEncoding.EncodeToString] *)
  base64_EncodeToString : list byte → string;
  (** [ssh.ParseAuthorizedKey], the key it returns *)
  ssh_ParseAuthorizedKey : string → result ssh.PublicKey;
  (** [Certificate.VerifyHostname] of [crypto/x509]: [None] is a nil error *)
  x509_VerifyHostname : x509.Certificate → string → option string;
  (** [time.ParseDuration], in nanoseconds *)
  time_ParseDuration : string → result Z;
  (** [Certificate.Marshal] of [ssh] and the bytes that are signed *)
  cert_Marshal : sshcert.Certificate → list byte;
  cert_bytesForSigning : sshcert.Certificate → list byte
}.

(** [ssh.MarshalAuthorizedKey]: type, a space, the base64 of the wire form,
    a newline. *)
Definition MarshalAuthorizedKey `{Libraries} (key : ssh.PublicKey) : string :=
  ssh.Type_ key +:+ " " +:+ base64_EncodeToString (ssh.Marshal key)
  +:+ newline.

(** [Certificate.SignCert(rand, authority)] of [ssh]: sets [Nonce] to 32
    fresh bytes, then [SignatureKey] and [Signature]. *)
Definition SignCert `{Libraries} (c : sshcert.Certificate)
    (rand : list byte) (authority : sshcert.Signer)
  : result sshcert.Certificate * list byte :=
  match ReadFull 32 rand with
  | (Err e, rand1) => (Err e, rand1)
  | (Ok nonce, rand1) =>
      let c1 :=
        {| sshcert.Nonce := nonce;
           sshcert.Key := sshcert.Key c;
           sshcert.Serial := sshcert.Serial c;
           sshcert.CertType := sshcert.CertType c;
           sshcert.KeyId := sshcert.KeyId c;
           sshcert.ValidPrincipals := sshcert.ValidPrincipals c;
           sshcert.ValidAfter := sshcert.ValidAfter c;
           sshcert.ValidBefore := sshcert.ValidBefore c;
           sshcert.SignatureKey := Some (sshcert.PublicKey authority);
           sshcert.Signature := sshcert.Signature c |} in
      match sshcert.Sign authority rand1 (cert_bytesForSigning c1) with
      | (Err e, rand2) => (Err e, rand2)
      | (Ok sig, rand2) =>
          (Ok {| sshcert.Nonce := nonce;
                 sshcert.Key := sshcert.Key c;
                 sshcert.Serial := sshcert.Serial c;
                 sshcert.CertType := sshcert.CertType c;
                 sshcert.KeyId := sshcert.KeyId c;
                 sshcert.ValidPrincipals := sshcert.ValidPrincipals c;
                 sshcert.ValidAfter := sshcert.ValidAfter c;
                 sshcert.ValidBefore := sshcert.ValidBefore c;
                 sshcert.SignatureKey := Some (sshcert.PublicKey authority);
                 sshcert.Signature := Some sig |}, rand2)
      end
  end.

(** ** [pkg/server/storage/mysql.go] *)

Module storage.
Section storage.
Context `{Libraries}.

(** [certTypeToMySQL] *)
Definition certTypeToMySQL (certType : Z) : result string :=
  if bool_decide (certType = ssh.HostCert) then Ok mysqlHostCert
  else if bool_decide (certType = ssh.UserCert) then Ok mysqlUserCert
  else Err ("storage: unknown ssh cert type: " +:+ pretty certType).

(** [MysqlStorage.RecordIssuance] *)
Definition RecordIssuance (certType : Z) (principal : string)
    (pubkey : ssh.PublicKey) (db : DB) : result Z * DB :=
  let pkdata := MarshalAuthorizedKey pubkey in
  match certTypeToMySQL certType with
  | Err e => (Err e, db)
  | Ok typ =>
      match Exec stmt_record_issuance [principal; pkdata; typ; pkdata] db with
      | (Err e, db1) => (Err ("error recording issuance: " +:+ e), db1)
      | (Ok res, db1) =>
          match LastInsertId res with
          | Ok id => (Ok (uint64 id), db1)
          | Err e => (Err e, db1)
          end
      end
  end.

(** The four slices filled by the loop over [mapping]. *)
Record batch : Type := {
  insertEntries : list string;
  insertValues : list string;
  deleteEntries : list string;
  deleteValues : list string
}.

Definition batch_step (b : batch) (kv : string * string) : batch :=
  let '(ssoIdentity, githubUser) := kv in
  {| insertEntries := insertEntries b ++ ["(?, ?)"];
     insertValues := (insertValues b ++ [ssoIdentity]) ++ [githubUser];
     deleteEntries := deleteEntries b ++ ["?"];
     deleteValues := deleteValues b ++ [ssoIdentity] |}.

Definition prepare_batch (entries : list (string * string)) : batch :=
  foldl batch_step
        {| insertEntries := []; insertValues := [];
           deleteEntries := []; deleteValues := [] |}
        entries.

(** [MysqlStorage.RecordGitHubMapping], with the order in which
    [range mapping] visits the entries given. *)
Definition RecordGitHubMapping_in_order (entries : list (string * string))
    (db : DB) : option string * DB :=
  let b := prepare_batch entries in
  let deleteStmt := delete_stmt_of (deleteEntries b) in
  match Exec deleteStmt (deleteValues b) db with
  | (Err e, db1) => (Some ("error deleting mappings: " +:+ e), db1)
  | (Ok _, db1) =>
      let insertStmt := insert_stmt_of (insertEntries b) in
      match Exec insertStmt (insertValues b) db1 with
      | (Err e, db2) => (Some ("error recording mapping: " +:+ e), db2)
      | (Ok _, db2) => (None, db2)
      end
  end.

Definition RecordGitHubMapping (mapping : gmap string string) (db : DB)
  : option string * DB :=
  RecordGitHubMapping_in_order (map_to_list mapping) db.

(** Modelled from the spec: [SqlResultIterator] is declared outside the
    sources.  It wraps the [*sql.Rows] of the query, "a lazy sequence of
    (hostname, publicKey)"; [None] is the zero value, without rows. *)
Record SqlResultIterator : Type := {
  Rows : option (list (list string))
}.

(** [MysqlStorage.QueryHostkeys] *)
Definition QueryHostkeys (db : DB)
  : (SqlResultIterator * option string) * DB :=
  match Query stmt_query_hostkeys [mysqlHostCert] db with
  | (Err err, db1) => (({| Rows := None |}, Some err), db1)
  | (Ok rows, db1) => (({| Rows := Some rows |}, None), db1)
  end.

(** [MysqlStorage.QueryGitHubMapping]: [QueryRow] keeps the error of the
    query for [Scan], which reports [sql.ErrNoRows] when no row came
    back. *)
Definition QueryGitHubMapping (ssoIdentity : string) (db : DB)
  : result string * DB :=
  match Query stmt_query_mapping [ssoIdentity] db with
  | (Err err, db1) => (Err err, db1)
  | (Ok [], db1) => (Err ErrNoRows, db1)
  | (Ok ([githubUser] :: _), db1) => (Ok githubUser, db1)
  | (Ok (cols :: _), db1) =>
      (Err ("sql: expected " +:+ pretty (length cols)
            +:+ " destination arguments in Scan, not 1"), db1)
  end.

End storage.
End storage.

(** ** The enrollment handler (package [main]) *)

Module server.

Definition sshHostCertificateType : Z := 2.

Record config : Type := {
  CertDuration : string;
  StripSuffix : string;
  Aliases : gmap string (list string)
}.

(** [context] without its [db] pointer: the database it points to is
    part of [World]. *)
Record context : Type := {
  conf : config;
  signer : sshcert.Signer
}.

(** What the handler reads of an [*http.Request]: the route variables,
    the TLS connection state ([None] is a nil [r.TLS]) and what
    [ioutil.ReadAll(r.Body)] returns. *)
Record Request : Type := {
  vars : gmap string string;
  TLS : option tls.ConnectionState;
  Body : result string
}.

(** Everything outside the handler that it reads or changes. *)
Record World : Type := {
  w_db : DB;
  w_rand : list byte;
  w_now : Z;             (* time.Now(), nanoseconds since the epoch *)
  w_log : list string;   (* lines printed by log.Print *)
  w_body_read : bool     (* r.Body has been read *)
}.

Definition set_db (db : DB) (w : World) : World :=
  {| w_db := db; w_rand := w_rand w; w_now := w_now w;
     w_log := w_log w; w_body_read := w_body_read w |}.
Definition set_rand (rand : list byte) (w : World) : World :=
  {| w_db := w_db w; w_rand := rand; w_now := w_now w;
     w_log := w_log w; w_body_read := w_body_read w |}.
Definition log_Print (line : string) (w : World) : World :=
  {| w_db := w_db w; w_rand := w_rand w; w_now := w_now w;
     w_log := w_log w ++ [line]; w_body_read := w_body_read w |}.
Definition read_body (w : World) : World :=
  {| w_db := w_db w; w_rand := w_rand w; w_now := w_now w;
     w_log := w_log w; w_body_read := true |}.

(** What was written to the [http.ResponseWriter]. *)
Record Response : Type := {
  status : Z;
  body : string
}.

Definition StatusOK : Z := 200.
Definition StatusUnauthorized : Z := 401.
Definition StatusForbidden : Z := 403.
Definition StatusInternalServerError : Z := 500.

(** [http.Error(w, msg, code)]: the status, then [msg] and a newline. *)
Definition http_Error (msg : string) (code : Z) : Response :=
  {| status := code; body := msg +:+ newline |}.

(** [Time.Unix()] of a time given in nanoseconds. *)
Definition Unix (t : Z) : Z := t / 1000000000.

Section server.
Context `{Libraries}.

Definition clientAuthenticated (r : Request) : outcome bool :=
  match TLS r with
  | None => Panics nil_deref
  | Some conn =>
      Returns (bool_decide (0 < length (tls.VerifiedChains conn))%nat)
  end.

Definition clientHostnameMatches (hostname : string) (r : Request)
  : outcome bool :=
  match TLS r with
  | None => Panics nil_deref
  | Some conn =>
      match tls.VerifiedChains conn with
      | [] => Returns false
      | [] :: _ => Panics index_out_of_range
      | (cert :: _) :: _ =>
          Returns (bool_decide (x509_VerifyHostname cert hostname = None))
      end
  end.

(** The principal list built by [signHost]. *)
Definition principals_of (c : context) (hostname : string) : list string :=
  let principals := [hostname] in
  let principals :=
    if negb (bool_decide (StripSuffix (conf c) = EmptyString))
       && strings.HasSuffix hostname (StripSuffix (conf c))
    then principals ++ [strings.TrimSuffix hostname (StripSuffix (conf c))]
    else principals in
  match Aliases (conf c) !! hostname with
  | Some aliases => principals ++ aliases
  | None => principals
  end.

Definition signHost (c : context) (hostname : string) (serial : Z)
    (pubkey : ssh.PublicKey) (w : World)
  : result sshcert.Certificate * World :=
  match ReadFull 32 (w_rand w) with
  | (Err e, rand1) => (Err e, set_rand rand1 w)
  | (Ok nonce, rand1) =>
      let w := set_rand rand1 w in
      let startTime := w_now w in
      match time_ParseDuration (CertDuration (conf c)) with
      | Err e => (Err e, w)
      | Ok week =>
          let endTime := startTime + week in
          let principals := principals_of c hostname in
          let template :=
            {| sshcert.Nonce := nonce;
               sshcert.Key := pubkey;
               sshcert.Serial := serial;
               sshcert.CertType := sshHostCertificateType;
               sshcert.KeyId := hostname;
               sshcert.ValidPrincipals := principals;
               sshcert.ValidAfter := uint64 (Unix startTime);
               sshcert.ValidBefore := uint64 (Unix endTime);
               sshcert.SignatureKey := None;
               sshcert.Signature := None |} in
          match SignCert template (w_rand w) (signer c) with
          | (Err e, rand2) => (Err e, set_rand rand2 w)
          | (Ok signed, rand2) => (Ok signed, set_rand rand2 w)
          end
      end
  end.

(** The insert-or-update of [EnrollHost], by driver. *)
Definition enroll_upsert (hostname encodedPubkey : string) (db : DB)
  : result sql_Result * DB :=
  match db_driver db with
  | SQLiteDriver => Exec stmt_enroll_sqlite [encodedPubkey; hostname] db
  | MySQLDriver =>
      Exec stmt_enroll_mysql [hostname; encodedPubkey; encodedPubkey] db
  end.

Definition EnrollHost (c : context) (hostname : string) (r : Request)
    (w : World) : result string * World :=
  let w := read_body w in
  match Body r with
  | Err e => (Err e, w)
  | Ok data =>
      let encodedPubkey := strings.TrimLeft data newline in
      match ssh_ParseAuthorizedKey data with
      | Err e => (Err e, w)
      | Ok pubkey =>
          match enroll_upsert hostname encodedPubkey (w_db w) with
          | (Err e, db1) => (Err e, set_db db1 w)
          | (Ok res, db1) =>
              let w := set_db db1 w in
              match LastInsertId res with
              | Err e => (Err e, w)
              | Ok id =>
                  match signHost c hostname (uint64 id) pubkey w with
                  | (Err e, w1) => (Err e, w1)
                  | (Ok signedCert, w1) =>
                      let certString :=
                        base64_EncodeToString (cert_Marshal signedCert) in
                      let header :=
                        ssh.Type_ (sshcert.Key signedCert)
                        +:+ "-cert-v01@openssh.com " in
                      (Ok (header +:+ certString), w1)
                  end
              end
          end
      end
  end.

Definition Enroll (c : context) (r : Request) (w : World)
  : outcome Response * World :=
  let hostname := default EmptyString (vars r !! "hostname") in
  match clientAuthenticated r with
  | Panics msg => (Panics msg, w)
  | Returns false =>
      (Returns (http_Error "no client certificate provided"
                           StatusUnauthorized), w)
  | Returns true =>
      match clientHostnameMatches hostname r with
      | Panics msg => (Panics msg, w)
      | Returns false =>
          (Returns (http_Error "hostname does not match certificate"
                               StatusForbidden), w)
      | Returns true =>
          match EnrollHost c hostname r w with
          | (Err err, w1) =>
              let w2 := log_Print "internal error" w1 in
              (Returns (http_Error err StatusInternalServerError), w2)
          | (Ok cert, w1) =>
              (Returns {| status := StatusOK; body := cert |}, w1)
          end
      end
  end.

End server.
End server.

(** ** Concrete libraries, keys and states for the examples *)

Module sample.

(** Standard base64 (RFC 4648) of a byte string, with padding. *)
Definition b64_alphabet : string :=
  "ABCDEFGHIJKLMNOPQRSTUVWXYZabcdefghijklmnopqrstuvwxyz0123456789+/".

Definition b64_char (n : Z) : string :=
  String.substring (Z.to_nat n) 1 b64_alphabet.

Definition byteZ (b : byte) : Z := Z.of_N (Byte.to_N b).

Fixpoint b64_encode (bs : list byte) : string :=
  match bs with
  | [] => EmptyString
  | [a] =>
      let n := Z.shiftl (byteZ a) 16 in
      b64_char (Z.land (Z.shiftr n 18) 63)
      +:+ b64_char (Z.land (Z.shiftr n 12) 63) +:+ "=="
  | [a; b] =>
      let n := Z.lor (Z.shiftl (byteZ a) 16) (Z.shiftl (byteZ b) 8) in
      b64_char (Z.land (Z.shiftr n 18) 63)
      +:+ b64_char (Z.land (Z.shiftr n 12) 63)
      +:+ b64_char (Z.land (Z.shiftr n 6) 63) +:+ "="
  | a :: b :: c :: rest =>
      let n := Z.lor (Z.lor (Z.shiftl (byteZ a) 16) (Z.shiftl (byteZ b) 8))
                     (byteZ c) in
      b64_char (Z.land (Z.shiftr n 18) 63)
      +:+ b64_char (Z.land (Z.shiftr n 12) 63)
      +:+ b64_char (Z.land (Z.shiftr n 6) 63)
      +:+ b64_char (Z.land n 63)
      +:+ b64_encode rest
  end.

(** The wire form of an ed25519 public key: the length-prefixed name
    [ssh-ed25519], then the length-prefixed 32 bytes of the key. *)
Definition ed25519_wire (pk : list byte) : list byte :=
  [x00; x00; x00; x0b;
   x73; x73; x68; x2d; x65; x64; x32; x35; x35; x31; x39;
   x00; x00; x00; x20] ++ pk.

Definition key1 : ssh.PublicKey :=
  {| ssh.Type_ := "ssh-ed25519";
     ssh.Marshal :=
       ed25519_wire
         [x01; x02; x03; x04; x05; x06; x07; x08;
          x09; x0a; x0b; x0c; x0d; x0e; x0f; x10;
          x11; x12; x13; x14; x15; x16; x17; x18;
          x19; x1a; x1b; x1c; x1d; x1e; x1f; x20] |}.
Definition key2 : ssh.PublicKey :=
  {| ssh.Type_ := "ssh-ed25519";
     ssh.Marshal :=
       ed25519_wire
         [x21; x22; x23; x24; x25; x26; x27; x28;
          x29; x2a; x2b; x2c; x2d; x2e; x2f; x30;
          x31; x32; x33; x34; x35; x36; x37; x38;
          x39; x3a; x3b; x3c; x3d; x3e; x3f; x40] |}.

Definition authorized_key (k : ssh.PublicKey) : string :=
  ssh.Type_ k +:+ " " +:+ b64_encode (ssh.Marshal k) +:+ newline.

(** A parser that knows the two sample keys, each a well-formed ed25519
    key in authorized-key form. *)
Definition parse_known (data : string) : result ssh.PublicKey :=
  if bool_decide (data = authorized_key key1) then Ok key1
  else if bool_decide (data = authorized_key key2) then Ok key2
  else Err "ssh: no key found".

(** Hostname verification by exact match against the DNS names. *)
Definition verify_exact (cert : x509.Certificate) (h : string)
  : option string :=
  if bool_decide (h ∈ x509.DNSNames cert) then None
  else Some ("x509: certificate is not valid for " +:+ h).

Definition parse_hours (s : string) : result Z :=
  if bool_decide (s = "168h") then Ok (168 * 3600 * 1000000000)
  else Err "time: invalid duration".

Definition marshal_fields (c : sshcert.Certificate) : list byte :=
  sshcert.Nonce c ++ ssh.Marshal (sshcert.Key c).

Definition libs : Libraries :=
  {| base64_EncodeToString := b64_encode;
     ssh_ParseAuthorizedKey := parse_known;
     x509_VerifyHostname := verify_exact;
     time_ParseDuration := parse_hours;
     cert_Marshal := marshal_fields;
     cert_bytesForSigning := marshal_fields |}.

Definition ca_key : ssh.PublicKey :=
  {| ssh.Type_ := "ssh-ed25519"; ssh.Marshal := [xca; xca] |}.

Definition ca : sshcert.Signer :=
  {| sshcert.PublicKey := ca_key;
     sshcert.Sign := λ rand data, (Ok (rev data), rand) |}.

Definition db1 : string := "db1.internal.example.com".

Definition ctx : server.context :=
  {| server.conf :=
       {| server.CertDuration := "168h";
          server.StripSuffix := ".internal.example.com";
          server.Aliases := ∅ |};
     server.signer := ca |}.

Definition empty_db (d : driver) : DB :=
  {| db_driver := d; hostkeys := []; hostkeys_auto_increment := 1;
     github_user_mappings := ∅; db_faults := [] |}.

Definition mapped_db : DB :=
  {| db_driver := MySQLDriver; hostkeys := []; hostkeys_auto_increment := 1;
     github_user_mappings := <["alice" := "alice-gh"]> {["bob" := "bob-gh"]};
     db_faults := [] |}.

Definition client_cert : x509.Certificate :=
  {| x509.Subject := "CN=db1.internal.example.com"; x509.DNSNames := [db1] |}.

Definition request (tls_state : option tls.ConnectionState)
    (hostname : string) (body : result string) : server.Request :=
  {| server.vars := {["hostname" := hostname]};
     server.TLS := tls_state;
     server.Body := body |}.

Definition verified : option tls.ConnectionState :=
  Some {| tls.VerifiedChains := [[client_cert]] |}.
Definition unverified : option tls.ConnectionState :=
  Some {| tls.VerifiedChains := [] |}.

Definition world (db : DB) (entropy : nat) : server.World :=
  {| server.w_db := db;
     server.w_rand := replicate entropy x5a;
     server.w_now := 1700000000 * 1000000000;
     server.w_log := [];
     server.w_body_read := false |}.

End sample.

(** ** Notions used to state the properties *)

Definition first_char (s : string) : option Ascii.ascii :=
  match s with
  | EmptyString => None
  | String c _ => Some c
  end.

(** The next round trip reaches the server. *)
Definition healthy (db : DB) : Prop :=
  match db_faults db with
  | Some _ :: _ => False
  | _ => True
  end.

(** [entries] is an order in which [range mapping] can visit [mapping]. *)
Definition visits (entries : list (string * string))
    (mapping : gmap string string) : Prop :=
  entries ≡ₚ map_to_list mapping.

(** The unique key of [hostkeys]. *)
Definition hostkey_key (r : hostkey) : string * string :=
  (hk_hostname r, hk_cert_type r).

Definition key_unique (rows : list hostkey) : Prop :=
  NoDup (hostkey_key <$> rows).

(** The key of [hostkeys] is unique; its ids are distinct, non-negative and
    below the AUTO_INCREMENT counter. *)
Definition hostkeys_wf (db : DB) : Prop :=
  key_unique (hostkeys db)
  ∧ NoDup (hk_id <$> hostkeys db)
  ∧ (∀ r, r ∈ hostkeys db → 0 ≤ hk_id r < hostkeys_auto_increment db)
  ∧ 0 ≤ hostkeys_auto_increment db.

(** A certificate as it is handed to the signer: without a signature. *)
Definition without_signature (c : sshcert.Certificate) : sshcert.Certificate :=
  {| sshcert.Nonce := sshcert.Nonce c;
     sshcert.Key := sshcert.Key c;
     sshcert.Serial := sshcert.Serial c;
     sshcert.CertType := sshcert.CertType c;
     sshcert.KeyId := sshcert.KeyId c;
     sshcert.ValidPrincipals := sshcert.ValidPrincipals c;
     sshcert.ValidAfter := sshcert.ValidAfter c;
     sshcert.ValidBefore := sshcert.ValidBefore c;
     sshcert.SignatureKey := sshcert.SignatureKey c;
     sshcert.Signature := None |}.

(** * Properties *)

(** ** Slices, suffixes and joins *)

Section string_facts.
Local Open Scope nat_scope.

Lemma length_app_str (s t : string) :
  String.length (s +:+ t) = String.length s + String.length t.
Proof. induction s as [|c s IH]; simpl; [done | by rewrite IH]. Qed.

Lemma substring_skip (a b : string) (m : nat) :
  String.substring (String.length a) m (a +:+ b) = String.substring 0 m b.
Proof. induction a as [|c a IH]; simpl; [done | exact IH]. Qed.

Lemma substring_all (s : string) :
  String.substring 0 (String.length s) s = s.
Proof. induction s as [|c s IH]; simpl; [done | by rewrite IH]. Qed.

Lemma substring_head (a b : string) :
  String.substring 0 (String.length a) (a +:+ b) = a.
Proof. induction a as [|c a IH]; simpl; [by destruct b | by rewrite IH]. Qed.

Lemma substring_split (s : string) (n : nat) :
  n ≤ String.length s →
  s = String.substring 0 n s
      +:+ String.substring n (String.length s - n) s.
Proof.
  revert n. induction s as [|c s IH]; intros n Hn; simpl in *.
  - by destruct n.
  - destruct n as [|n]; simpl.
    + by rewrite substring_all.
    + change (String c ?a +:+ ?b) with (String c (a +:+ b)).
      f_equal. apply IH. lia.
Qed.

Lemma slice_from_app (stem suffix : string) :
  strings.slice_from (String.length stem) (stem +:+ suffix) = suffix.
Proof.
  unfold strings.slice_from.
  rewrite length_app_str, substring_skip.
  replace (String.length stem + String.length suffix - String.length stem)
    with (String.length suffix) by lia.
  apply substring_all.
Qed.

(** [HasSuffix] holds exactly of the strings that end in [suffix]. *)
Lemma HasSuffix_true (s suffix : string) :
  strings.HasSuffix s suffix = true ↔ ∃ stem, s = stem +:+ suffix.
Proof.
  unfold strings.HasSuffix. rewrite andb_true_iff, !bool_decide_eq_true.
  split.
  - intros [Hlen Hsuf].
    exists (strings.slice_to (String.length s - String.length suffix) s).
    etransitivity;
      [apply (substring_split s (String.length s - String.length suffix));
       lia |].
    unfold strings.slice_to. f_equal. exact Hsuf.
  - intros [stem ->]. rewrite length_app_str. split; [lia |].
    replace (String.length stem + String.length suffix
             - String.length suffix) with (String.length stem) by lia.
    apply slice_from_app.
Qed.

Lemma HasSuffix_false (s suffix : string) :
  strings.HasSuffix s suffix = false ↔ ∀ stem, s ≠ stem +:+ suffix.
Proof.
  rewrite <- not_true_iff_false, HasSuffix_true. split.
  - intros Hno stem ->. apply Hno. by exists stem.
  - intros Hno [stem ->]. by apply (Hno stem).
Qed.

Lemma TrimSuffix_app (stem suffix : string) :
  strings.TrimSuffix (stem +:+ suffix) suffix = stem.
Proof.
  unfold strings.TrimSuffix.
  rewrite (proj2 (HasSuffix_true _ _)) by eauto.
  unfold strings.slice_to. rewrite length_app_str.
  replace (String.length stem + String.length suffix
           - String.length suffix) with (String.length stem) by lia.
  apply substring_head.
Qed.

Lemma Join_cons (e : string) (elems : list string) (sep : string) :
  elems ≠ [] →
  strings.Join (e :: elems) sep = e +:+ sep +:+ strings.Join elems sep.
Proof. by destruct elems. Qed.

Lemma length_Join_replicate (n : nat) (e sep : string) :
  String.length (strings.Join (replicate n e) sep)
  = n * String.length e + (n - 1) * String.length sep.
Proof.
  induction n as [|n IH]; [done |].
  destruct n as [|n]; [simpl; lia |].
  change (replicate (S (S n)) e) with (e :: replicate (S n) e).
  rewrite Join_cons by done.
  rewrite !length_app_str, IH.
  replace (S (S n) - 1) with (S n) by lia.
  replace (S n - 1) with n by lia.
  simpl. lia.
Qed.

End string_facts.

(** ** The entropy source and the signer *)

Section signing_facts.
Context `{Libraries}.
Import server.

Lemma ReadFull_enough (n : nat) (src : list byte) :
  (n ≤ length src)%nat → ReadFull n src = (Ok (take n src), drop n src).
Proof. intros Hn. unfold ReadFull. by rewrite bool_decide_eq_true_2. Qed.

Lemma ReadFull_short (n : nat) (src : list byte) :
  (length src < n)%nat → ∃ e, ReadFull n src = (Err e, []).
Proof.
  intros Hn. unfold ReadFull.
  rewrite bool_decide_eq_false_2 by lia. eauto.
Qed.

Lemma ReadFull_inv (n : nat) (src rest out : list byte) :
  ReadFull n src = (Ok out, rest) →
  (n ≤ length src)%nat ∧ out = take n src ∧ rest = drop n src
  ∧ length out = n.
Proof.
  unfold ReadFull. case_bool_decide as Hn; [| done].
  intros [= <- <-]. repeat split; [done |].
  rewrite length_take. lia.
Qed.

(** [SignCert] touches [Nonce], [SignatureKey] and [Signature] only. *)
Lemma SignCert_inv (c c' : sshcert.Certificate) (rand rand' : list byte)
    (authority : sshcert.Signer) :
  SignCert c rand authority = (Ok c', rand') →
  (32 ≤ length rand)%nat
  ∧ sshcert.Nonce c' = take 32 rand
  ∧ sshcert.ValidPrincipals c' = sshcert.ValidPrincipals c
  ∧ sshcert.Serial c' = sshcert.Serial c
  ∧ sshcert.KeyId c' = sshcert.KeyId c
  ∧ sshcert.CertType c' = sshcert.CertType c
  ∧ sshcert.Key c' = sshcert.Key c.
Proof.
  unfold SignCert. destruct (ReadFull 32 rand) as [[nonce|e] rand1] eqn:Hread;
    [| done].
  apply ReadFull_inv in Hread as (Hlen & -> & -> & _).
  destruct (sshcert.Sign _ _ _) as [[sig|e] rand2]; [| done].
  intros [= <- <-]. by repeat split.
Qed.

Lemma signHost_inv (c : context) (hostname : string) (serial : Z)
    (pubkey : ssh.PublicKey) (w w' : World) (cert : sshcert.Certificate) :
  signHost c hostname serial pubkey w = (Ok cert, w') →
  (64 ≤ length (w_rand w))%nat
  ∧ sshcert.Nonce cert = take 32 (drop 32 (w_rand w))
  ∧ sshcert.ValidPrincipals cert = principals_of c hostname
  ∧ sshcert.Serial cert = serial
  ∧ sshcert.KeyId cert = hostname
  ∧ sshcert.CertType cert = sshHostCertificateType
  ∧ sshcert.Key cert = pubkey.
Proof.
  unfold signHost.
  destruct (ReadFull 32 (w_rand w)) as [[nonce|e] rand1] eqn:Hread; [| done].
  apply ReadFull_inv in Hread as (Hlen & -> & -> & _).
  destruct (time_ParseDuration _) as [week|e]; [| done].
  cbn [w_rand set_rand].
  destruct (SignCert _ _ _) as [[signed|e] rand2] eqn:Hsign; [| done].
  intros [= <- <-].
  apply SignCert_inv in Hsign as (Hlen2 & ? & ? & ? & ? & ? & ?).
  rewrite length_drop in Hlen2.
  repeat split; [lia | done ..].
Qed.

Lemma signHost_succeeds (c : context) (hostname : string) (serial : Z)
    (pubkey : ssh.PublicKey) (w : World) :
  (64 ≤ length (w_rand w))%nat →
  (∃ week, time_ParseDuration (CertDuration (conf c)) = Ok week) →
  (∀ rand data, ∃ sig rand',
      sshcert.Sign (signer c) rand data = (Ok sig, rand')) →
  ∃ cert w', signHost c hostname serial pubkey w = (Ok cert, w').
Proof.
  intros Hlen [week Hweek] Hsign. unfold signHost.
  rewrite ReadFull_enough by lia. rewrite Hweek.
  cbn [w_rand set_rand]. unfold SignCert.
  rewrite ReadFull_enough by (rewrite length_drop; lia).
  match goal with
  | |- context [sshcert.Sign (signer c) ?r ?d] =>
      destruct (Hsign r d) as (sig & rand' & ->)
  end.
  eauto.
Qed.

(** The principal list in the words of the specification. *)
Lemma principals_of_stripped (c : context) (stem : string) :
  let suffix := StripSuffix (conf c) in
  suffix ≠ EmptyString →
  principals_of c (stem +:+ suffix)
  = (stem +:+ suffix) :: stem
      :: default [] (Aliases (conf c) !! (stem +:+ suffix)).
Proof.
  intros suffix Hne. unfold principals_of. fold suffix.
  rewrite bool_decide_eq_false_2 by done.
  rewrite (proj2 (HasSuffix_true _ _)) by eauto.
  rewrite TrimSuffix_app. cbn [negb andb].
  by destruct (Aliases (conf c) !! _).
Qed.

Lemma principals_of_plain (c : context) (hostname : string) :
  let suffix := StripSuffix (conf c) in
  suffix = EmptyString ∨ (∀ stem, hostname ≠ stem +:+ suffix) →
  principals_of c hostname
  = hostname :: default [] (Aliases (conf c) !! hostname).
Proof.
  intros suffix Hno. unfold principals_of. fold suffix.
  assert (negb (bool_decide (suffix = EmptyString))
          && strings.HasSuffix hostname suffix = false) as ->.
  { destruct Hno as [-> | Hno]; [done |].
    apply andb_false_iff. right. by apply HasSuffix_false. }
  by destruct (Aliases (conf c) !! _).
Qed.

End signing_facts.

(** ** [signHost]: principals and nonce *)

Section signHost_claims.
Context `{Libraries}.
Import server.

(** C7. With enough entropy, a parseable duration and a working signer,
    [signHost] returns a certificate whose valid principals are the
    requested hostname, then the hostname without the configured suffix
    when that suffix is non-empty and ends the hostname, then the aliases
    configured for that exact hostname, in their configured order.  For
    [db1.internal.example.com], suffix [.internal.example.com] and no
    aliases the list is exactly [db1.internal.example.com; db1]. *)
Theorem signHost_valid_principals (c : context) (hostname : string)
    (serial : Z) (pubkey : ssh.PublicKey) (w : World) :
  let suffix := StripSuffix (conf c) in
  let aliases := default [] (Aliases (conf c) !! hostname) in
  (64 ≤ length (w_rand w))%nat →
  (∃ week, time_ParseDuration (CertDuration (conf c)) = Ok week) →
  (∀ rand data, ∃ sig rand',
      sshcert.Sign (signer c) rand data = (Ok sig, rand')) →
  ∃ cert w',
    signHost c hostname serial pubkey w = (Ok cert, w')
    ∧ (∀ stem, suffix ≠ EmptyString → hostname = stem +:+ suffix →
         sshcert.ValidPrincipals cert = hostname :: stem :: aliases)
    ∧ (suffix = EmptyString ∨ (∀ stem, hostname ≠ stem +:+ suffix) →
         sshcert.ValidPrincipals cert = hostname :: aliases)
    ∧ (hostname = "db1.internal.example.com" →
       suffix = ".internal.example.com" →
       Aliases (conf c) !! hostname = None →
       sshcert.ValidPrincipals cert = ["db1.internal.example.com"; "db1"]).
Proof.
  intros suffix aliases Hlen Hweek Hsign.
  destruct (signHost_succeeds c hostname serial pubkey w Hlen Hweek Hsign)
    as (cert & w' & Hrun).
  exists cert, w'. split; [exact Hrun |].
  apply signHost_inv in Hrun as (_ & _ & Hprinc & _).
  rewrite Hprinc. repeat split.
  - intros stem Hne ->. by apply principals_of_stripped.
  - intros Hno. by apply principals_of_plain.
  - intros -> Hsuf Hal.
    pose proof (principals_of_stripped c "db1") as Hstrip.
    unfold suffix in Hsuf. cbv zeta in Hstrip. rewrite Hsuf in Hstrip.
    change ("db1" +:+ ".internal.example.com")
      with "db1.internal.example.com" in Hstrip.
    rewrite Hal in Hstrip.
    by apply Hstrip.
Qed.

(** C9. [signHost] first reads 32 bytes from the entropy source.  When
    that read fails the call returns the error at once, with no
    certificate.  A certificate is returned only when that read and the one
    of [SignCert] both got their 32 bytes, and it carries a 32-byte nonce
    drawn from the source.  With enough entropy, a parseable duration and a
    working signer a certificate is returned. *)
Theorem signHost_nonce (c : context) (hostname : string) (serial : Z)
    (pubkey : ssh.PublicKey) (w : World) :
  ((length (w_rand w) < 32)%nat →
     ∃ e, signHost c hostname serial pubkey w = (Err e, set_rand [] w))
  ∧ (∀ cert w', signHost c hostname serial pubkey w = (Ok cert, w') →
       (64 ≤ length (w_rand w))%nat
       ∧ length (sshcert.Nonce cert) = 32%nat
       ∧ sshcert.Nonce cert = take 32 (drop 32 (w_rand w)))
  ∧ ((64 ≤ length (w_rand w))%nat →
     (∃ week, time_ParseDuration (CertDuration (conf c)) = Ok week) →
     (∀ rand data, ∃ sig rand',
         sshcert.Sign (signer c) rand data = (Ok sig, rand')) →
     ∃ cert w', signHost c hostname serial pubkey w = (Ok cert, w')
                ∧ length (sshcert.Nonce cert) = 32%nat).
Proof.
  assert (∀ cert w', signHost c hostname serial pubkey w = (Ok cert, w') →
            (64 ≤ length (w_rand w))%nat
            ∧ length (sshcert.Nonce cert) = 32%nat
            ∧ sshcert.Nonce cert = take 32 (drop 32 (w_rand w))) as Hinv.
  { intros cert w' Hrun.
    apply signHost_inv in Hrun as (Hlen & Hnonce & _).
    repeat split; [lia | | done].
    rewrite Hnonce, length_take, length_drop. lia. }
  repeat split.
  - intros Hshort. unfold signHost.
    destruct (ReadFull_short 32 (w_rand w) Hshort) as [e ->]. eauto.
  - by eapply Hinv.
  - by eapply Hinv.
  - by eapply Hinv.
  - intros Hlen Hweek Hsign.
    destruct (signHost_succeeds c hostname serial pubkey w Hlen Hweek Hsign)
      as (cert & w' & Hrun).
    exists cert, w'. split; [done |]. by eapply Hinv.
Qed.

End signHost_claims.

Lemma signHost_valid_principals_witness :
  ∃ cert w',
    @server.signHost sample.libs sample.ctx sample.db1 1 sample.key1
      (sample.world (sample.empty_db MySQLDriver) 64) = (Ok cert, w')
    ∧ sshcert.ValidPrincipals cert = ["db1.internal.example.com"; "db1"].
Proof.
  destruct (@signHost_valid_principals sample.libs sample.ctx sample.db1 1
              sample.key1 (sample.world (sample.empty_db MySQLDriver) 64))
    as (cert & w' & Hrun & _ & _ & Hexample).
  - vm_compute. lia.
  - eexists. vm_compute. reflexivity.
  - intros rand data. eexists _, _. reflexivity.
  - exists cert, w'. split; [exact Hrun |]. by apply Hexample.
Defined.

Lemma signHost_nonce_witness :
  (∃ e, @server.signHost sample.libs sample.ctx sample.db1 1 sample.key1
          (sample.world (sample.empty_db MySQLDriver) 10)
        = (Err e, server.set_rand []
                    (sample.world (sample.empty_db MySQLDriver) 10)))
  ∧ (∃ cert w',
       @server.signHost sample.libs sample.ctx sample.db1 1 sample.key1
         (sample.world (sample.empty_db MySQLDriver) 64) = (Ok cert, w')
       ∧ length (sshcert.Nonce cert) = 32%nat).
Proof.
  split.
  - apply (@signHost_nonce sample.libs sample.ctx sample.db1 1 sample.key1
             (sample.world (sample.empty_db MySQLDriver) 10)).
    vm_compute. lia.
  - apply (@signHost_nonce sample.libs sample.ctx sample.db1 1 sample.key1
             (sample.world (sample.empty_db MySQLDriver) 64)).
    + vm_compute. lia.
    + eexists. vm_compute. reflexivity.
    + intros rand data. eexists _, _. reflexivity.
Defined.

(** ** The authorization gate and the handler *)

Section gate_claims.
Context `{Libraries}.
Import server.

Lemma clientAuthenticated_nil (r : Request) :
  TLS r = None → clientAuthenticated r = Panics nil_deref.
Proof. intros Hnil. unfold clientAuthenticated. by rewrite Hnil. Qed.

Lemma clientHostnameMatches_nil (hostname : string) (r : Request) :
  TLS r = None → clientHostnameMatches hostname r = Panics nil_deref.
Proof. intros Hnil. unfold clientHostnameMatches. by rewrite Hnil. Qed.

Lemma clientAuthenticated_chain (r : Request) (conn : tls.ConnectionState) :
  TLS r = Some conn →
  clientAuthenticated r
  = Returns (bool_decide (tls.VerifiedChains conn ≠ [])).
Proof.
  intros Hconn. unfold clientAuthenticated. rewrite Hconn. f_equal.
  destruct (tls.VerifiedChains conn) as [|chain chains]; cbn [length];
    repeat case_bool_decide; first [done | lia].
Qed.

Lemma clientHostnameMatches_no_chain (hostname : string) (r : Request)
    (conn : tls.ConnectionState) :
  TLS r = Some conn →
  tls.VerifiedChains conn = [] →
  clientHostnameMatches hostname r = Returns false.
Proof.
  intros Hconn Hnone. unfold clientHostnameMatches. by rewrite Hconn, Hnone.
Qed.

Lemma clientHostnameMatches_mismatch (hostname : string) (r : Request)
    (conn : tls.ConnectionState) (leaf : x509.Certificate)
    (rest : list x509.Certificate) (chains : list (list x509.Certificate))
    (e : string) :
  TLS r = Some conn →
  tls.VerifiedChains conn = (leaf :: rest) :: chains →
  x509_VerifyHostname leaf hostname = Some e →
  clientHostnameMatches hostname r = Returns false.
Proof.
  intros Hconn Hchain Hverify. unfold clientHostnameMatches.
  rewrite Hconn, Hchain, Hverify. by rewrite bool_decide_eq_false_2.
Qed.

(** C8, amended.  On a request whose TLS connection state is present, both
    predicates return [false] when there is no verified chain, and
    [clientHostnameMatches] returns [false] when the leaf of the first
    verified chain does not verify the hostname. *)
Theorem auth_gate_fails_closed (hostname : string) (r : Request)
    (conn : tls.ConnectionState) :
  TLS r = Some conn →
  (tls.VerifiedChains conn = [] →
     clientAuthenticated r = Returns false
     ∧ clientHostnameMatches hostname r = Returns false)
  ∧ (∀ leaf rest chains e,
       tls.VerifiedChains conn = (leaf :: rest) :: chains →
       x509_VerifyHostname leaf hostname = Some e →
       clientAuthenticated r = Returns true
       ∧ clientHostnameMatches hostname r = Returns false).
Proof.
  intros Hconn. split.
  - intros Hnone. split.
    + rewrite (clientAuthenticated_chain r conn Hconn), Hnone.
      by rewrite bool_decide_eq_false_2 by auto.
    + by apply (clientHostnameMatches_no_chain hostname r conn).
  - intros leaf rest chains e Hchain Hverify. split.
    + rewrite (clientAuthenticated_chain r conn Hconn), Hchain.
      by rewrite bool_decide_eq_true_2.
    + by apply (clientHostnameMatches_mismatch hostname r conn leaf rest
                  chains e).
Qed.

(** With no TLS connection state the handler panics before anything is
    read or written. *)
Lemma Enroll_nil_TLS (c : context) (r : Request) (w : World) :
  TLS r = None → Enroll c r w = (Panics nil_deref, w).
Proof.
  intros Hnil. unfold Enroll. by rewrite clientAuthenticated_nil.
Qed.

(** C3, amended.  On a request whose TLS connection state is present:
    without a verified chain [Enroll] answers 401, and with a verified
    chain whose leaf does not verify the hostname it answers 403; in both
    cases the world is left as it was, so the body is unread and nothing
    is written to storage. *)
Theorem Enroll_rejects_unauthorized (c : context) (r : Request)
    (w : World) (conn : tls.ConnectionState) :
  let hostname := default EmptyString (vars r !! "hostname") in
  TLS r = Some conn →
  (tls.VerifiedChains conn = [] →
     Enroll c r w
     = (Returns {| status := 401;
                   body := "no client certificate provided" +:+ newline |},
        w))
  ∧ (∀ leaf rest chains e,
       tls.VerifiedChains conn = (leaf :: rest) :: chains →
       x509_VerifyHostname leaf hostname = Some e →
       Enroll c r w
       = (Returns {| status := 403;
                     body := "hostname does not match certificate"
                             +:+ newline |},
          w)).
Proof.
  intros hostname Hconn. split.
  - intros Hchains. unfold Enroll.
    rewrite (clientAuthenticated_chain r conn Hconn), Hchains.
    by rewrite bool_decide_eq_false_2 by auto.
  - intros leaf rest chains e Hchain Hverify. unfold Enroll.
    rewrite (clientAuthenticated_chain r conn Hconn), Hchain.
    rewrite bool_decide_eq_true_2 by done. fold hostname.
    by rewrite (clientHostnameMatches_mismatch hostname r conn leaf rest
                  chains e).
Qed.

(** An error of [EnrollHost] is what the caller gets as the body of the
    500 response; the log line carries no detail. *)
Lemma Enroll_internal_error (c : context) (r : Request) (w w1 : World)
    (err : string) :
  let hostname := default EmptyString (vars r !! "hostname") in
  clientAuthenticated r = Returns true →
  clientHostnameMatches hostname r = Returns true →
  EnrollHost c hostname r w = (Err err, w1) →
  Enroll c r w
  = (Returns {| status := 500; body := err +:+ newline |},
     log_Print "internal error" w1).
Proof.
  intros hostname Hauth Hmatch Hrun. unfold Enroll.
  rewrite Hauth. fold hostname. by rewrite Hmatch, Hrun.
Qed.

(** A failure of the storage round trip comes out of [EnrollHost] with
    the driver's text unchanged. *)
Lemma EnrollHost_storage_error (c : context) (hostname data : string)
    (r : Request) (w : World) (pubkey : ssh.PublicKey) (e : string)
    (rest : list (option string)) :
  Body r = Ok data →
  ssh_ParseAuthorizedKey data = Ok pubkey →
  db_faults (w_db w) = Some e :: rest →
  EnrollHost c hostname r w
  = (Err e, set_db (with_faults rest (w_db w)) (read_body w)).
Proof.
  intros Hbody Hparse Hfault. unfold EnrollHost.
  rewrite Hbody, Hparse. unfold enroll_upsert, Exec. cbn [w_db read_body].
  rewrite Hfault. by destruct (db_driver (w_db w)).
Qed.

End gate_claims.

Lemma auth_gate_fails_closed_witness :
  (@server.clientAuthenticated
     (sample.request sample.unverified sample.db1 (Err "EOF"))
   = Returns false
   ∧ @server.clientHostnameMatches sample.libs sample.db1
       (sample.request sample.unverified sample.db1 (Err "EOF"))
     = Returns false)
  ∧ (@server.clientAuthenticated
       (sample.request sample.verified "db2.internal.example.com" (Err "EOF"))
     = Returns true
     ∧ @server.clientHostnameMatches sample.libs "db2.internal.example.com"
         (sample.request sample.verified "db2.internal.example.com"
            (Err "EOF"))
       = Returns false).
Proof.
  split.
  - eapply (@auth_gate_fails_closed sample.libs sample.db1
              (sample.request sample.unverified sample.db1 (Err "EOF")));
      reflexivity.
  - eapply (@auth_gate_fails_closed sample.libs "db2.internal.example.com"
              (sample.request sample.verified "db2.internal.example.com"
                 (Err "EOF")));
      reflexivity.
Defined.

(** C8 as stated fails on a request without TLS connection state: both
    predicates dereference the nil [r.TLS] and panic. *)
Lemma auth_gate_panics_without_TLS :
  @server.clientAuthenticated
    (sample.request None sample.db1 (Ok (sample.authorized_key sample.key1)))
  = Panics nil_deref
  ∧ @server.clientHostnameMatches sample.libs sample.db1
      (sample.request None sample.db1
         (Ok (sample.authorized_key sample.key1)))
    = Panics nil_deref.
Proof. split; reflexivity. Qed.

Lemma Enroll_rejects_unauthorized_witness :
  @server.Enroll sample.libs sample.ctx
    (sample.request sample.unverified sample.db1
       (Ok (sample.authorized_key sample.key1)))
    (sample.world (sample.empty_db MySQLDriver) 64)
  = (Returns {| server.status := 401;
                server.body := "no client certificate provided" +:+ newline |},
     sample.world (sample.empty_db MySQLDriver) 64)
  ∧ @server.Enroll sample.libs sample.ctx
      (sample.request sample.verified "db2.internal.example.com"
         (Ok (sample.authorized_key sample.key1)))
      (sample.world (sample.empty_db MySQLDriver) 64)
    = (Returns {| server.status := 403;
                  server.body := "hostname does not match certificate"
                                 +:+ newline |},
       sample.world (sample.empty_db MySQLDriver) 64).
Proof.
  split.
  - eapply (@Enroll_rejects_unauthorized sample.libs sample.ctx
              (sample.request sample.unverified sample.db1
                 (Ok (sample.authorized_key sample.key1))));
      reflexivity.
  - eapply (@Enroll_rejects_unauthorized sample.libs sample.ctx
              (sample.request sample.verified "db2.internal.example.com"
                 (Ok (sample.authorized_key sample.key1))));
      reflexivity.
Defined.

(** C3 as stated fails on a request without TLS connection state: it has
    no verified chain, and [Enroll] panics instead of answering 401. *)
Lemma Enroll_panics_without_TLS :
  fst (@server.Enroll sample.libs sample.ctx
         (sample.request None sample.db1
            (Ok (sample.authorized_key sample.key1)))
         (sample.world (sample.empty_db MySQLDriver) 64))
  = Panics nil_deref.
Proof. reflexivity. Qed.

(** C6.  An authenticated request for a matching hostname whose storage
    round trip fails: the response body is the driver's error text,
    verbatim, while the log only says "internal error". *)
Theorem Enroll_returns_driver_error_text :
  let w :=
    sample.world
      (with_faults
         [Some "dial tcp 10.0.0.5:3306: connect: connection refused"]
         (sample.empty_db MySQLDriver)) 64 in
  let out :=
    @server.Enroll sample.libs sample.ctx
      (sample.request sample.verified sample.db1
         (Ok (sample.authorized_key sample.key1))) w in
  fst out
  = Returns
      {| server.status := 500;
         server.body :=
           "dial tcp 10.0.0.5:3306: connect: connection refused"
           +:+ newline |}
  ∧ server.w_log (snd out) = ["internal error"].
Proof. split; vm_compute; reflexivity. Qed.

(** ** Statements as the server reads them *)

Section statement_facts.
Local Open Scope nat_scope.

Lemma find_unique {A : Type} (P : A → bool) (l : list A) (x : A) :
  x ∈ l → P x = true → (∀ y, y ∈ l → P y = true → y = x) →
  List.find P l = Some x.
Proof.
  induction l as [|a l IH]; intros Hin HP Huniq.
  - by apply elem_of_nil in Hin.
  - simpl. destruct (P a) eqn:HPa.
    + f_equal. apply Huniq; [left | done].
    + apply IH; [| done |].
      * apply elem_of_cons in Hin as [-> | Hin]; [congruence | done].
      * intros y Hy. apply Huniq. by right.
Qed.

Lemma find_absent {A : Type} (P : A → bool) (l : list A) :
  (∀ y, y ∈ l → P y = false) → List.find P l = None.
Proof.
  induction l as [|a l IH]; intros Hno; [done |].
  simpl. rewrite (Hno a) by left. apply IH. intros y Hy. apply Hno.
  by right.
Qed.

Lemma find_count_at (text_of : nat → string) (n : nat) :
  1 ≤ n ≤ String.length (text_of n) →
  (∀ m, 1 ≤ m → text_of n = text_of m → m = n) →
  find_count text_of (text_of n) = Some n.
Proof.
  intros Hn Hinj. unfold find_count. apply find_unique.
  - apply elem_of_seq. lia.
  - by apply bool_decide_eq_true.
  - intros m Hm Heq. apply elem_of_seq in Hm.
    apply bool_decide_eq_true in Heq. apply Hinj; [lia | done].
Qed.

Lemma find_count_none (text_of : nat → string) (query : string) :
  (∀ m, query ≠ text_of m) → find_count text_of query = None.
Proof.
  intros Hno. unfold find_count. apply find_absent.
  intros m _. by apply bool_decide_eq_false.
Qed.

Lemma length_delete_stmt (n : nat) :
  String.length (delete_stmt_of (replicate n "?"))
  = String.length (delete_stmt_of []) + (n + (n - 1)).
Proof.
  unfold delete_stmt_of.
  rewrite !length_app_str, length_Join_replicate. simpl. lia.
Qed.

Lemma length_insert_stmt (n : nat) :
  String.length (insert_stmt_of (replicate n "(?, ?)"))
  = String.length (insert_stmt_of []) + (n * 6 + (n - 1)).
Proof.
  unfold insert_stmt_of.
  rewrite !length_app_str, length_Join_replicate. simpl. lia.
Qed.

Lemma first_char_delete_stmt (entries : list string) :
  first_char (delete_stmt_of entries) = first_char "D".
Proof. reflexivity. Qed.

Lemma first_char_insert_stmt (entries : list string) :
  first_char (insert_stmt_of entries) = first_char "R".
Proof. reflexivity. Qed.

Lemma mysql_parse_delete (n : nat) :
  mysql_parse (delete_stmt_of (replicate n "?"))
  = match n with 0 => None | S _ => Some (DeleteMappingsNotIn n) end.
Proof.
  destruct n as [|n]; [by vm_compute |].
  unfold mysql_parse.
  rewrite bool_decide_eq_false_2
    by (intros E; apply (f_equal first_char) in E;
        by rewrite first_char_delete_stmt in E).
  rewrite bool_decide_eq_false_2
    by (intros E; apply (f_equal first_char) in E;
        by rewrite first_char_delete_stmt in E).
  rewrite (find_count_at (λ n, delete_stmt_of (replicate n "?"))); [done | |].
  - rewrite length_delete_stmt. lia.
  - intros m Hm E. apply (f_equal String.length) in E.
    rewrite !length_delete_stmt in E. lia.
Qed.

Lemma mysql_parse_insert (n : nat) :
  mysql_parse (insert_stmt_of (replicate n "(?, ?)"))
  = match n with 0 => None | S _ => Some (ReplaceMappings n) end.
Proof.
  destruct n as [|n]; [by vm_compute |].
  unfold mysql_parse.
  rewrite bool_decide_eq_false_2
    by (intros E; apply (f_equal first_char) in E;
        by rewrite first_char_insert_stmt in E).
  rewrite bool_decide_eq_false_2
    by (intros E; apply (f_equal first_char) in E;
        by rewrite first_char_insert_stmt in E).
  rewrite find_count_none.
  2:{ intros m E. apply (f_equal first_char) in E.
      by rewrite first_char_insert_stmt, first_char_delete_stmt in E. }
  rewrite (find_count_at (λ n, insert_stmt_of (replicate n "(?, ?)")));
    [done | |].
  - rewrite length_insert_stmt. lia.
  - intros m Hm E. apply (f_equal String.length) in E.
    rewrite !length_insert_stmt in E. lia.
Qed.

Lemma sqlite_parse_mappings (entries : list string) :
  sqlite_parse (delete_stmt_of entries) = None
  ∧ sqlite_parse (insert_stmt_of entries) = None.
Proof.
  unfold sqlite_parse. split.
  - rewrite bool_decide_eq_false_2; [done |].
    intros E. apply (f_equal first_char) in E.
    by rewrite first_char_delete_stmt in E.
  - rewrite bool_decide_eq_false_2; [done |].
    intros E. apply (f_equal first_char) in E.
    by rewrite first_char_insert_stmt in E.
Qed.

End statement_facts.

(** ** Round trips *)

Section exec_facts.

Lemma Exec_fault (query : string) (args : list string) (db : DB)
    (e : string) (rest : list (option string)) :
  db_faults db = Some e :: rest →
  Exec query args db = (Err e, with_faults rest db).
Proof. intros Hf. unfold Exec. by rewrite Hf. Qed.

(** Either the round trip returns an error and leaves every table as it
    was, or the statement was recognised, had the right number of
    arguments and was run. *)
Lemma Exec_cases (query : string) (args : list string) (db : DB) :
  let db0 := with_faults (tail (db_faults db)) db in
  (∃ e, Exec query args db = (Err e, db0))
  ∨ (healthy db
     ∧ ∃ st,
         match db_driver db with
         | MySQLDriver => mysql_parse query
         | SQLiteDriver => sqlite_parse query
         end = Some st
         ∧ length args = placeholders st
         ∧ Exec query args db = run_statement st args db0).
Proof.
  intros db0. unfold db0, Exec, healthy.
  destruct (db_faults db) as [|[e|] rest] eqn:Hf; cbn [tail db_driver with_faults];
    [| left; by exists e |].
  all: destruct (db_driver db);
    [destruct (sqlite_parse query) as [st|] | destruct (mysql_parse query) as [st|]];
    try (left; eauto; fail).
  all: case_bool_decide; [right; split; [done |]; by exists st | left; eauto].
Qed.

Lemma Exec_healthy (query : string) (args : list string) (db : DB)
    (st : statement) :
  healthy db →
  match db_driver db with
  | MySQLDriver => mysql_parse query
  | SQLiteDriver => sqlite_parse query
  end = Some st →
  length args = placeholders st →
  Exec query args db
  = run_statement st args (with_faults (tail (db_faults db)) db).
Proof.
  intros Hh Hparse Hlen. unfold Exec, healthy in *.
  destruct (db_faults db) as [|[e|] rest]; [| done |];
    cbn [tail db_driver with_faults]; rewrite Hparse;
    by rewrite bool_decide_eq_true_2.
Qed.

End exec_facts.

(** ** [RecordGitHubMapping] *)

Section mapping_facts.
Import storage.

(** What the loop leaves in the four slices. *)
Lemma foldl_batch_step (entries : list (string * string)) (b : batch) :
  foldl batch_step b entries
  = {| insertEntries := insertEntries b ++ replicate (length entries) "(?, ?)";
       insertValues :=
         insertValues b ++ flat_map (λ kv, [kv.1; kv.2]) entries;
       deleteEntries := deleteEntries b ++ replicate (length entries) "?";
       deleteValues := deleteValues b ++ entries.*1 |}.
Proof.
  revert b. induction entries as [|[k v] entries IH]; intros b.
  - destruct b. cbn. by rewrite !app_nil_r.
  - cbn [foldl]. rewrite IH. cbn. by rewrite <- !app_assoc.
Qed.

Lemma prepare_batch_eq (entries : list (string * string)) :
  prepare_batch entries
  = {| insertEntries := replicate (length entries) "(?, ?)";
       insertValues := flat_map (λ kv, [kv.1; kv.2]) entries;
       deleteEntries := replicate (length entries) "?";
       deleteValues := entries.*1 |}.
Proof. unfold prepare_batch. by rewrite foldl_batch_step. Qed.

Lemma length_flat_pairs (entries : list (string * string)) :
  length (flat_map (λ kv, [kv.1; kv.2]) entries) = (2 * length entries)%nat.
Proof. induction entries as [|kv entries IH]; cbn; [done | lia]. Qed.

Lemma replace_mappings_pairs (entries : list (string * string))
    (m : gmap string string) :
  replace_mappings (flat_map (λ kv, [kv.1; kv.2]) entries) m
  = foldl (λ acc kv, <[kv.1 := kv.2]> acc) m entries.
Proof.
  revert m. induction entries as [|[k v] entries IH]; intros m; [done |].
  cbn. apply IH.
Qed.

Lemma lookup_foldl_insert (entries : list (string * string))
    (m : gmap string string) (p : string) :
  NoDup entries.*1 →
  foldl (λ acc kv, <[kv.1 := kv.2]> acc) m entries !! p
  = match (list_to_map entries : gmap string string) !! p with
    | Some u => Some u
    | None => m !! p
    end.
Proof.
  revert m. induction entries as [|[k v] entries IH]; intros m Hnd.
  - cbn. by rewrite lookup_empty.
  - cbn in Hnd. apply NoDup_cons in Hnd as [Hk Hnd].
    cbn [foldl]. rewrite IH by done. rewrite list_to_map_cons.
    cbn [fst snd]. destruct (decide (p = k)) as [-> | Hne].
    + rewrite (not_elem_of_list_to_map_1 entries k Hk).
      by rewrite !lookup_insert_eq.
    + by rewrite !lookup_insert_ne.
Qed.

Lemma visits_NoDup (entries : list (string * string))
    (mapping : gmap string string) :
  visits entries mapping → NoDup entries.*1.
Proof.
  unfold visits. intros Hv. rewrite Hv. apply NoDup_fst_map_to_list.
Qed.

Lemma visits_list_to_map (entries : list (string * string))
    (mapping : gmap string string) :
  visits entries mapping → list_to_map entries = mapping.
Proof.
  intros Hv. rewrite <- (list_to_map_to_list mapping).
  apply list_to_map_proper; [by eapply visits_NoDup | exact Hv].
Qed.

Lemma visits_nonempty (entries : list (string * string))
    (mapping : gmap string string) :
  visits entries mapping → entries ≠ [] → mapping ≠ ∅.
Proof.
  unfold visits. intros Hv Hne ->. rewrite map_to_list_empty in Hv.
  by apply Permutation_nil_r in Hv.
Qed.

Lemma elem_of_fst_visits (entries : list (string * string))
    (mapping : gmap string string) (p : string) :
  visits entries mapping → p ∈ entries.*1 ↔ is_Some (mapping !! p).
Proof.
  intros Hv. rewrite <- (visits_list_to_map entries mapping Hv).
  rewrite <- not_eq_None_Some, <- not_elem_of_list_to_map. split.
  - intros Hin Hnot. exact (Hnot Hin).
  - intros Hnn. destruct (decide (p ∈ entries.*1)) as [Hin | Hnot];
      [exact Hin | destruct (Hnn Hnot)].
Qed.

Lemma lookup_kept (ids : list string) (m : gmap string string) (p : string) :
  filter (λ kv : string * string, kv.1 ∈ ids) m !! p
  = if decide (p ∈ ids) then m !! p else None.
Proof.
  apply option_eq. intros x. rewrite map_lookup_filter_Some. cbn.
  case_decide as Hin.
  - split; [by intros [? _] | by intros ?].
  - split; [by intros [_ ?] | done].
Qed.

(** Deleting the rows whose identity is not among the new ones keeps
    exactly the rows of the principals that the new mapping names. *)
Lemma kept_by_mapping (entries : list (string * string))
    (mapping m : gmap string string) :
  visits entries mapping →
  filter (λ kv : string * string, kv.1 ∈ entries.*1) m
  = filter (λ kv : string * string, is_Some (mapping !! kv.1)) m.
Proof.
  intros Hv. apply map_filter_ext. intros i x _. cbn.
  by apply elem_of_fst_visits.
Qed.

(** The delete followed by the replace leaves exactly the new mapping. *)
Lemma delete_then_replace (entries : list (string * string))
    (mapping m : gmap string string) :
  visits entries mapping →
  foldl (λ acc kv, <[kv.1 := kv.2]> acc)
        (filter (λ kv : string * string, kv.1 ∈ entries.*1) m)
        entries
  = mapping.
Proof.
  intros Hv. apply map_eq. intros p.
  rewrite lookup_foldl_insert by (by eapply visits_NoDup).
  rewrite (visits_list_to_map entries mapping Hv).
  destruct (mapping !! p) as [u|] eqn:Hp; [done |].
  rewrite lookup_kept. case_decide as Hin; [| done].
  apply (elem_of_fst_visits entries mapping p Hv) in Hin as [u Hu].
  congruence.
Qed.

End mapping_facts.

Section mapping_outcomes.
Import storage.

(** The three ways [RecordGitHubMapping] can end, whatever the order in
    which the loop visits the mapping: both statements ran; the delete did
    not run; the delete ran and the insert did not. *)
Lemma RecordGitHubMapping_cases (entries : list (string * string))
    (mapping : gmap string string) (db : DB) :
  visits entries mapping →
  ∃ err db',
    RecordGitHubMapping_in_order entries db = (err, db')
    ∧ hostkeys db' = hostkeys db
    ∧ ((err = None ∧ mapping ≠ ∅ ∧ github_user_mappings db' = mapping)
       ∨ (∃ e, err = Some ("error deleting mappings: " +:+ e)
               ∧ github_user_mappings db' = github_user_mappings db)
       ∨ (∃ e, err = Some ("error recording mapping: " +:+ e)
               ∧ mapping ≠ ∅
               ∧ github_user_mappings db'
                 = filter (λ kv : string * string, is_Some (mapping !! kv.1))
                          (github_user_mappings db))).
Proof.
  intros Hv. unfold RecordGitHubMapping_in_order.
  rewrite prepare_batch_eq.
  cbn [deleteEntries deleteValues insertEntries insertValues].
  destruct (length entries) as [|n] eqn:Hn.
  - (* nothing to map: the delete statement does not parse *)
    destruct (Exec_cases (delete_stmt_of (replicate 0 "?")) entries.*1 db)
      as [[e He] | (_ & st & Hparse & _)].
    + rewrite He. eexists _, _. split; [reflexivity |].
      split; [done |]. right; left. by exists e.
    + destruct (db_driver db).
      * by rewrite (proj1 (sqlite_parse_mappings _)) in Hparse.
      * by rewrite mysql_parse_delete in Hparse.
  - assert (mapping ≠ ∅) as Hne.
    { apply (visits_nonempty entries); [done |]. by intros ->. }
    destruct (Exec_cases (delete_stmt_of (replicate (S n) "?"))
                entries.*1 db)
      as [[e He] | (_ & st & Hparse & _ & Hrun)].
    + rewrite He. eexists _, _. split; [reflexivity |].
      split; [done |]. right; left. by exists e.
    + destruct (db_driver db) eqn:Hdrv.
      { by rewrite (proj1 (sqlite_parse_mappings _)) in Hparse. }
      rewrite mysql_parse_delete in Hparse. injection Hparse as <-.
      rewrite Hrun. cbn [run_statement]. unfold delete_mappings_not_in.
      match goal with
      | |- context [Exec ?q ?args ?d] =>
          destruct (Exec_cases q args d)
            as [[e He] | (_ & st & Hparse & _ & Hrun2)]
      end.
      * rewrite He. eexists _, _. split; [reflexivity |].
        split; [done |]. right; right. exists e.
        split; [done |]. split; [done |]. cbn. by apply kept_by_mapping.
      * cbn [db_driver with_mappings with_faults] in Hparse.
        rewrite Hdrv, mysql_parse_insert in Hparse.
        injection Hparse as <-.
        rewrite Hrun2. cbn [run_statement].
        eexists _, _. split; [reflexivity |].
        split; [done |]. left. split; [done |]. split; [done |].
        cbn. rewrite replace_mappings_pairs. by apply delete_then_replace.
Qed.

Lemma visits_map_to_list (mapping : gmap string string) :
  visits (map_to_list mapping) mapping.
Proof. unfold visits. reflexivity. Qed.

(** With an empty mapping the delete statement has an empty [NOT IN ()]
    list: it is an error, and the table stays as it was. *)
Lemma RecordGitHubMapping_empty (db : DB) :
  ∃ e db',
    RecordGitHubMapping ∅ db
    = (Some ("error deleting mappings: " +:+ e), db')
    ∧ github_user_mappings db' = github_user_mappings db.
Proof.
  destruct (RecordGitHubMapping_cases (map_to_list ∅) ∅ db
              (visits_map_to_list ∅))
    as (err & db' & Hrun & _ & [(_ & Hne & _) | [(e & -> & Hsame)
                                                | (e & _ & Hne & _)]]);
    [done | | done].
  by exists e, db'.
Qed.

Lemma empty_delete_statement :
  delete_stmt_of (deleteEntries (prepare_batch (map_to_list (∅ : gmap string string))))
  = "DELETE FROM github_user_mappings WHERE sso_identity NOT IN ()".
Proof. by vm_compute. Qed.

(** C4.  [RecordGitHubMapping] with the empty mapping on a table of two
    rows: the statement sent is [... NOT IN ()], which MySQL rejects; the
    call returns an error and both rows are still there. *)
Theorem RecordGitHubMapping_empty_keeps_rows :
  RecordGitHubMapping ∅ sample.mapped_db
  = (Some ("error deleting mappings: " +:+ syntax_error), sample.mapped_db)
  ∧ github_user_mappings sample.mapped_db !! "alice" = Some "alice-gh"
  ∧ github_user_mappings sample.mapped_db !! "bob" = Some "bob-gh".
Proof. repeat split; by vm_compute. Qed.

(** C5, amended.  The delete and the insert are two statements.  Whatever
    the order in which the loop visits the mapping, the call ends in one of
    three states: the new mapping (no error); the old table (the delete
    failed); the old table without the rows of the principals that the new
    mapping does not name (the insert failed after the delete).  In each of
    them a principal of the new mapping has its old row or its new one, any
    other principal has its old row or none, and [hostkeys] is untouched. *)
Theorem RecordGitHubMapping_outcomes (entries : list (string * string))
    (mapping : gmap string string) (db : DB) :
  visits entries mapping →
  ∃ err db',
    RecordGitHubMapping_in_order entries db = (err, db')
    ∧ hostkeys db' = hostkeys db
    ∧ (err = None → github_user_mappings db' = mapping)
    ∧ (github_user_mappings db' = mapping
       ∨ github_user_mappings db' = github_user_mappings db
       ∨ github_user_mappings db'
         = filter (λ kv : string * string, is_Some (mapping !! kv.1))
                  (github_user_mappings db))
    ∧ (∀ p,
         match mapping !! p with
         | Some u =>
             github_user_mappings db' !! p = github_user_mappings db !! p
             ∨ github_user_mappings db' !! p = Some u
         | None =>
             github_user_mappings db' !! p = github_user_mappings db !! p
             ∨ github_user_mappings db' !! p = None
         end).
Proof.
  intros Hv.
  destruct (RecordGitHubMapping_cases entries mapping db Hv)
    as (err & db' & Hrun & Hkeys & Hcases).
  exists err, db'. split; [done |]. split; [done |].
  destruct Hcases as [(-> & _ & Hnew) | [(e & -> & Hold) | (e & -> & _ & Hkept)]].
  - split; [done |]. split; [by left |].
    intros p. rewrite Hnew. destruct (mapping !! p); by right.
  - split; [done |]. split; [right; by left |].
    intros p. rewrite Hold. destruct (mapping !! p); by left.
  - split; [done |]. split; [right; by right |].
    intros p. rewrite Hkept.
    destruct (mapping !! p) as [u|] eqn:Hp.
    + left. apply option_eq. intros x. rewrite map_lookup_filter_Some.
      cbn. rewrite Hp. split; [by intros [? _] | by intros ?].
    + right. apply map_lookup_filter_None. right. intros x _. cbn.
      rewrite Hp. by intros [? ?].
Qed.

(** C5 as stated fails: with the second round trip failing, the delete has
    taken effect (bob's row is gone) and the insert has not (alice still
    has her old row), so the table is neither the old one nor the new
    mapping. *)
Lemma RecordGitHubMapping_delete_without_insert :
  let db := with_faults [None; Some "driver: bad connection"]
                        sample.mapped_db in
  let mapping : gmap string string := {["alice" := "al"]} in
  let out := RecordGitHubMapping mapping db in
  fst out = Some "error recording mapping: driver: bad connection"
  ∧ github_user_mappings (snd out) = {["alice" := "alice-gh"]}
  ∧ github_user_mappings (snd out) ≠ github_user_mappings db
  ∧ github_user_mappings (snd out) ≠ mapping.
Proof.
  repeat split; by vm_compute.
Qed.

End mapping_outcomes.

(** ** Rows of [hostkeys] *)

Section hostkey_facts.

Lemma same_key_true (h t : string) (r : hostkey) :
  same_key h t r = true ↔ hostkey_key r = (h, t).
Proof.
  unfold same_key, hostkey_key.
  rewrite andb_true_iff, !bool_decide_eq_true. split.
  - by intros [-> ->].
  - by intros [= -> ->].
Qed.

Lemma find_app_absent {A : Type} (P : A → bool) (l l' : list A) :
  List.find P l = None → List.find P (l ++ l') = List.find P l'.
Proof.
  induction l as [|a l IH]; [done |]. simpl.
  destruct (P a); [done | exact IH].
Qed.

Lemma filter_find_absent {A : Type} (P : A → bool) (l : list A) :
  List.find P l = None → List.filter P l = [].
Proof.
  induction l as [|a l IH]; [done |]. simpl.
  destruct (P a); [done | exact IH].
Qed.

Lemma find_absent_key (h t : string) (rows : list hostkey) :
  (h, t) ∉ hostkey_key <$> rows → List.find (same_key h t) rows = None.
Proof.
  intros Hnot. apply find_absent. intros r Hr.
  apply not_true_iff_false. rewrite same_key_true. intros Hkey.
  apply Hnot. rewrite <- Hkey. by apply list_elem_of_fmap_2.
Qed.

(** Under the unique key at most one row answers to a key. *)
Lemma filter_same_key_unique (h t : string) (rows : list hostkey)
    (r : hostkey) :
  key_unique rows →
  List.find (same_key h t) rows = Some r →
  List.filter (same_key h t) rows = [r].
Proof.
  unfold key_unique.
  induction rows as [|x rows IH]; intros Hnd Hfind; [done |].
  cbn in Hnd. apply NoDup_cons in Hnd as [Hx Hnd].
  simpl in *. destruct (same_key h t x) eqn:Hkey.
  - injection Hfind as ->. f_equal.
    apply filter_find_absent, find_absent_key.
    apply same_key_true in Hkey. by rewrite <- Hkey.
  - by apply IH.
Qed.

Lemma find_map_set_pubkey (h t k : string) (rows : list hostkey) :
  List.find (same_key h t)
    (List.map (λ x, if same_key h t x then set_pubkey k x else x) rows)
  = set_pubkey k <$> List.find (same_key h t) rows.
Proof.
  induction rows as [|x rows IH]; [done |]. simpl.
  destruct (same_key h t x) eqn:Hkey.
  - change (same_key h t (set_pubkey k x)) with (same_key h t x).
    by rewrite Hkey.
  - by rewrite Hkey.
Qed.

Lemma filter_map_set_pubkey (h t k : string) (rows : list hostkey) :
  List.filter (same_key h t)
    (List.map (λ x, if same_key h t x then set_pubkey k x else x) rows)
  = set_pubkey k <$> List.filter (same_key h t) rows.
Proof.
  induction rows as [|x rows IH]; [done |]. simpl.
  destruct (same_key h t x) eqn:Hkey.
  - change (same_key h t (set_pubkey k x)) with (same_key h t x).
    rewrite Hkey. cbn. by rewrite IH.
  - by rewrite Hkey.
Qed.

(** The update path of the upsert: the row keeps its id, and the id
    reported is the one the row already had. *)
Lemma mysql_upsert_update (h k t k' : string) (db : DB) (r : hostkey) :
  List.find (same_key h t) (hostkeys db) = Some r →
  hk_pubkey r ≠ k' →
  ∃ db',
    mysql_upsert_hostkey h k t k' db
    = ({| insertId := hk_id r; affectedRows := 2 |}, db')
    ∧ List.find (same_key h t) (hostkeys db') = Some (set_pubkey k' r)
    ∧ hk_id (set_pubkey k' r) = hk_id r.
Proof.
  intros Hfind Hne. unfold mysql_upsert_hostkey. rewrite Hfind.
  rewrite bool_decide_eq_false_2 by done.
  eexists. split; [reflexivity |]. split; [| done].
  cbn [hostkeys with_hostkeys]. by rewrite find_map_set_pubkey, Hfind.
Qed.

(** The insert path: the new row gets the next AUTO_INCREMENT value. *)
Lemma mysql_upsert_insert (h k t k' : string) (db : DB) :
  List.find (same_key h t) (hostkeys db) = None →
  let row := {| hk_id := hostkeys_auto_increment db; hk_hostname := h;
                hk_pubkey := k; hk_cert_type := t |} in
  mysql_upsert_hostkey h k t k' db
  = ({| insertId := hostkeys_auto_increment db; affectedRows := 1 |},
     with_hostkeys (hostkeys db ++ [row])
                   (hostkeys_auto_increment db + 1) db)
  ∧ List.find (same_key h t) (hostkeys db ++ [row]) = Some row.
Proof.
  intros Hfind row. unfold mysql_upsert_hostkey. rewrite Hfind.
  split; [done |]. rewrite find_app_absent by done.
  cbn. unfold same_key. cbn. by rewrite !bool_decide_eq_true_2.
Qed.

(** Running the upsert a second time with the same values changes
    nothing, and exactly one row answers to the key, holding the key
    submitted. *)
Lemma mysql_upsert_idempotent (h k t : string) (db : DB) :
  key_unique (hostkeys db) →
  let d1 := snd (mysql_upsert_hostkey h k t k db) in
  mysql_upsert_hostkey h k t k d1
  = ({| insertId := 0; affectedRows := 0 |}, d1)
  ∧ ∃ row, List.filter (same_key h t) (hostkeys d1) = [row]
           ∧ hk_hostname row = h ∧ hk_pubkey row = k.
Proof.
  intros Huniq.
  destruct (List.find (same_key h t) (hostkeys db)) as [r|] eqn:Hfind.
  - assert (hk_hostname r = h) as Hhost.
    { apply find_some in Hfind as [_ Hkey].
      apply same_key_true in Hkey. by injection Hkey. }
    destruct (decide (hk_pubkey r = k)) as [Hsame | Hdiff].
    + unfold mysql_upsert_hostkey. rewrite Hfind.
      rewrite bool_decide_eq_true_2 by done. cbn [snd].
      rewrite Hfind. rewrite bool_decide_eq_true_2 by done.
      split; [done |]. exists r.
      by rewrite (filter_same_key_unique h t _ r).
    + destruct (mysql_upsert_update h k t k db r Hfind Hdiff)
        as (db' & Hrun & Hfind' & _).
      rewrite Hrun. cbn [snd]. split.
      * unfold mysql_upsert_hostkey at 1. rewrite Hfind'.
        by rewrite bool_decide_eq_true_2.
      * exists (set_pubkey k r).
        unfold mysql_upsert_hostkey in Hrun. rewrite Hfind in Hrun.
        rewrite bool_decide_eq_false_2 in Hrun by done.
        injection Hrun as <-. cbn [hostkeys with_hostkeys].
        rewrite filter_map_set_pubkey.
        by rewrite (filter_same_key_unique h t _ r).
  - destruct (mysql_upsert_insert h k t k db Hfind) as [Hrun Hfind'].
    rewrite Hrun. cbn [snd]. split.
    + unfold mysql_upsert_hostkey. cbn [hostkeys with_hostkeys].
      rewrite Hfind'. by rewrite bool_decide_eq_true_2.
    + eexists. cbn [hostkeys with_hostkeys].
      rewrite List.filter_app, (filter_find_absent _ _ Hfind).
      cbn. unfold same_key. cbn. rewrite !bool_decide_eq_true_2 by done.
      done.
Qed.

End hostkey_facts.

(** ** [RecordIssuance] and the upsert of [EnrollHost] *)

Section issuance_facts.
Context `{Libraries}.
Import storage.

Lemma with_faults_same (db : DB) :
  db_faults db = [] → with_faults (tail (db_faults db)) db = db.
Proof. intros Hf. rewrite Hf. destruct db; cbn in *. by subst. Qed.

Lemma certTypeToMySQL_ok (certType : Z) (typ : string) :
  certTypeToMySQL certType = Ok typ →
  (certType = ssh.HostCert ∧ typ = mysqlHostCert)
  ∨ (certType = ssh.UserCert ∧ typ = mysqlUserCert).
Proof.
  unfold certTypeToMySQL. repeat case_bool_decide; intros [= <-]; auto.
Qed.

(** On a MySQL connection without faults [RecordIssuance] is the upsert,
    and its result is the insert id the server reports. *)
Lemma RecordIssuance_reaches (certType : Z) (typ principal : string)
    (pubkey : ssh.PublicKey) (db : DB) :
  db_driver db = MySQLDriver →
  db_faults db = [] →
  certTypeToMySQL certType = Ok typ →
  RecordIssuance certType principal pubkey db
  = (Ok (uint64 (insertId
                   (fst (mysql_upsert_hostkey principal
                           (MarshalAuthorizedKey pubkey) typ
                           (MarshalAuthorizedKey pubkey) db)))),
     snd (mysql_upsert_hostkey principal (MarshalAuthorizedKey pubkey) typ
            (MarshalAuthorizedKey pubkey) db)).
Proof.
  intros Hdrv Hf Htyp. unfold RecordIssuance. rewrite Htyp.
  rewrite (Exec_healthy _ _ db UpsertHostkeyTyped).
  - rewrite with_faults_same by done. cbn [run_statement].
    by destruct (mysql_upsert_hostkey _ _ _ _ db).
  - unfold healthy. by rewrite Hf.
  - by rewrite Hdrv.
  - done.
Qed.

Lemma mysql_upsert_keeps_connection (h k t k' : string) (db : DB) :
  db_driver (snd (mysql_upsert_hostkey h k t k' db)) = db_driver db
  ∧ db_faults (snd (mysql_upsert_hostkey h k t k' db)) = db_faults db.
Proof.
  unfold mysql_upsert_hostkey.
  destruct (List.find _ _); [case_bool_decide |]; done.
Qed.

(** A second enrollment of a principal with another key, on the MySQL
    back end: the serial returned is the one the first enrollment got. *)
Lemma RecordIssuance_reenroll (certType : Z) (typ principal : string)
    (key key' : ssh.PublicKey) (db : DB) :
  db_driver db = MySQLDriver →
  db_faults db = [] →
  certTypeToMySQL certType = Ok typ →
  List.find (same_key principal typ) (hostkeys db) = None →
  MarshalAuthorizedKey key ≠ MarshalAuthorizedKey key' →
  ∃ d1 d2,
    RecordIssuance certType principal key db
    = (Ok (uint64 (hostkeys_auto_increment db)), d1)
    ∧ RecordIssuance certType principal key' d1
      = (Ok (uint64 (hostkeys_auto_increment db)), d2).
Proof.
  intros Hdrv Hf Htyp Hfind Hkeys.
  destruct (mysql_upsert_insert principal (MarshalAuthorizedKey key) typ
              (MarshalAuthorizedKey key) db Hfind) as [Hrun Hfind1].
  rewrite (RecordIssuance_reaches certType typ) by done.
  rewrite Hrun. cbn [fst snd insertId].
  match type of Hrun with
  | _ = (_, ?d) =>
      destruct (mysql_upsert_update principal (MarshalAuthorizedKey key')
                  typ (MarshalAuthorizedKey key') d _ Hfind1)
        as (d2 & Hrun2 & _); [done |];
      exists d, d2
  end.
  split; [reflexivity |].
  rewrite (RecordIssuance_reaches certType typ) by done.
  rewrite Hrun2. cbn [fst snd insertId hk_id]. done.
Qed.

(** X17.  [RecordIssuance] twice with the same principal, type and key, on
    the MySQL back end: the second call changes nothing, and exactly one row
    answers to the key, with the submitted key stored. *)
Lemma RecordIssuance_idempotent (certType : Z) (typ principal : string)
    (key : ssh.PublicKey) (db : DB) :
  db_driver db = MySQLDriver →
  db_faults db = [] →
  certTypeToMySQL certType = Ok typ →
  key_unique (hostkeys db) →
  ∃ s d1,
    RecordIssuance certType principal key db = (Ok s, d1)
    ∧ RecordIssuance certType principal key d1 = (Ok 0, d1)
    ∧ ∃ row, List.filter (same_key principal typ) (hostkeys d1) = [row]
             ∧ hk_hostname row = principal
             ∧ hk_pubkey row = MarshalAuthorizedKey key.
Proof.
  intros Hdrv Hf Htyp Huniq.
  destruct (mysql_upsert_idempotent principal (MarshalAuthorizedKey key)
              typ db Huniq) as [Hagain Hrow].
  destruct (mysql_upsert_keeps_connection principal
              (MarshalAuthorizedKey key) typ (MarshalAuthorizedKey key) db)
    as [Hdrv1 Hf1].
  eexists _, _. split; [by apply (RecordIssuance_reaches certType typ) |].
  split; [| exact Hrow].
  rewrite (RecordIssuance_reaches certType typ); [| congruence .. | done].
  by rewrite Hagain.
Qed.

(** X18.  The MySQL branch of the upsert of [EnrollHost] is idempotent in
    the same way. *)
Lemma enroll_upsert_mysql_idempotent (hostname encodedPubkey : string)
    (db : DB) :
  db_driver db = MySQLDriver →
  db_faults db = [] →
  key_unique (hostkeys db) →
  ∃ res d1,
    server.enroll_upsert hostname encodedPubkey db = (Ok res, d1)
    ∧ snd (server.enroll_upsert hostname encodedPubkey d1) = d1
    ∧ ∃ row,
        List.filter (same_key hostname cert_type_default) (hostkeys d1)
        = [row]
        ∧ hk_hostname row = hostname ∧ hk_pubkey row = encodedPubkey.
Proof.
  intros Hdrv Hf Huniq.
  destruct (mysql_upsert_idempotent hostname encodedPubkey
              cert_type_default db Huniq) as [Hagain Hrow].
  destruct (mysql_upsert_keeps_connection hostname encodedPubkey
              cert_type_default encodedPubkey db) as [Hdrv1 Hf1].
  unfold server.enroll_upsert. rewrite Hdrv.
  rewrite (Exec_healthy _ _ db UpsertHostkey);
    [| unfold healthy; by rewrite Hf | by rewrite Hdrv | done].
  rewrite with_faults_same by done. cbn [run_statement].
  destruct (mysql_upsert_hostkey hostname encodedPubkey cert_type_default
              encodedPubkey db) as [res d1] eqn:Hrun.
  cbn [snd] in *. eexists _, _. split; [reflexivity |].
  split; [| exact Hrow].
  rewrite Hdrv1, Hdrv.
  rewrite (Exec_healthy _ _ d1 UpsertHostkey);
    [| unfold healthy; by rewrite Hf1, Hf | by rewrite Hdrv1, Hdrv | done].
  rewrite with_faults_same by congruence. cbn [run_statement].
  by rewrite Hagain.
Qed.

(** C10.  For a [certType] that is neither [ssh.HostCert] nor
    [ssh.UserCert], [RecordIssuance] returns the error of
    [certTypeToMySQL] and the database is exactly as before: no statement
    is sent. *)
Theorem RecordIssuance_unknown_certType (certType : Z) (principal : string)
    (pubkey : ssh.PublicKey) (db : DB) :
  certType ≠ ssh.HostCert →
  certType ≠ ssh.UserCert →
  RecordIssuance certType principal pubkey db
  = (Err ("storage: unknown ssh cert type: " +:+ pretty certType), db).
Proof.
  intros Hhost Huser. unfold RecordIssuance, certTypeToMySQL.
  by rewrite !bool_decide_eq_false_2 by done.
Qed.

End issuance_facts.

Lemma RecordIssuance_unknown_certType_witness :
  @storage.RecordIssuance sample.libs 7 sample.db1 sample.key1
    (sample.empty_db MySQLDriver)
  = (Err ("storage: unknown ssh cert type: " +:+ pretty 7),
     sample.empty_db MySQLDriver).
Proof.
  apply (@RecordIssuance_unknown_certType sample.libs 7 sample.db1
           sample.key1 (sample.empty_db MySQLDriver)).
  - unfold ssh.HostCert. lia.
  - unfold ssh.UserCert. lia.
Defined.

(** C1.  A host enrolls with one key and then with another, on the MySQL
    back end.  The first call inserts the row and returns serial 1; the
    second call updates the key of that row and returns serial 1 again: the
    row keeps its id, and the two issuances cannot be told apart by their
    serial. *)
Theorem RecordIssuance_reenroll_same_serial :
  let first :=
    @storage.RecordIssuance sample.libs ssh.HostCert sample.db1 sample.key1
      (sample.empty_db MySQLDriver) in
  let second :=
    @storage.RecordIssuance sample.libs ssh.HostCert sample.db1 sample.key2
      (snd first) in
  fst first = Ok 1
  ∧ fst second = Ok 1
  ∧ hostkeys (snd second)
    = [{| hk_id := 1; hk_hostname := sample.db1;
          hk_pubkey := sample.authorized_key sample.key2;
          hk_cert_type := mysqlHostCert |}].
Proof. repeat split; by vm_compute. Qed.

Lemma RecordGitHubMapping_outcomes_witness :
  github_user_mappings
    (snd (storage.RecordGitHubMapping_in_order
            [("bob", "robert"); ("alice", "al")] sample.mapped_db))
  = <["alice" := "al"]> {["bob" := "robert"]}.
Proof.
  destruct (RecordGitHubMapping_outcomes
              [("bob", "robert"); ("alice", "al")]
              (<["alice" := "al"]> {["bob" := "robert"]}) sample.mapped_db)
    as (err & db' & Hrun & _ & Hok & _).
  - unfold visits. vm_compute. apply perm_swap.
  - rewrite Hrun. cbn [snd]. apply Hok.
    assert (fst (storage.RecordGitHubMapping_in_order
                   [("bob", "robert"); ("alice", "al")] sample.mapped_db)
            = None) as Hnone by (by vm_compute).
    by rewrite Hrun in Hnone.
Defined.

(** ** The well-formedness of [hostkeys] is kept by every round trip *)

Section wf_facts.

Lemma find_none_key (h t : string) (rows : list hostkey) :
  List.find (same_key h t) rows = None → (h, t) ∉ hostkey_key <$> rows.
Proof.
  intros Hfind Hin. apply list_elem_of_fmap in Hin as (r & Hkey & Hr).
  apply list_elem_of_In in Hr.
  pose proof (find_none _ _ Hfind r Hr) as Hfalse.
  apply not_true_iff_false in Hfalse. apply Hfalse.
  by apply same_key_true.
Qed.

Lemma NoDup_fmap_filter {A B : Type} (f : A → B) (P : A → bool)
    (l : list A) :
  NoDup (f <$> l) → NoDup (f <$> List.filter P l).
Proof.
  induction l as [|x l IH]; [done |]. cbn. intros Hnd.
  apply NoDup_cons in Hnd as [Hx Hnd]. destruct (P x); [| by apply IH].
  cbn. apply NoDup_cons. split; [| by apply IH].
  intros Hin. apply Hx. apply list_elem_of_fmap in Hin as (y & -> & Hy).
  apply list_elem_of_fmap. exists y. split; [done |].
  apply list_elem_of_In. apply list_elem_of_In in Hy.
  by apply filter_In in Hy as [Hy _].
Qed.

Lemma hostkeys_wf_same (db db' : DB) :
  hostkeys db' = hostkeys db →
  hostkeys_auto_increment db' = hostkeys_auto_increment db →
  hostkeys_wf db → hostkeys_wf db'.
Proof. unfold hostkeys_wf. by intros -> ->. Qed.

Lemma fmap_key_set_pubkey (h t k : string) (rows : list hostkey) :
  hostkey_key <$> List.map (λ x, if same_key h t x then set_pubkey k x else x) rows
  = hostkey_key <$> rows.
Proof.
  induction rows as [|x rows IH]; [done |]. cbn. rewrite <- IH.
  by destruct (same_key h t x).
Qed.

Lemma fmap_id_set_pubkey (h t k : string) (rows : list hostkey) :
  hk_id <$> List.map (λ x, if same_key h t x then set_pubkey k x else x) rows
  = hk_id <$> rows.
Proof.
  induction rows as [|x rows IH]; [done |]. cbn. rewrite <- IH.
  by destruct (same_key h t x).
Qed.

Lemma hostkeys_wf_append (db : DB) (row : hostkey) :
  hostkeys_wf db →
  hostkey_key row ∉ hostkey_key <$> hostkeys db →
  hk_id row = hostkeys_auto_increment db →
  hostkeys_wf (with_hostkeys (hostkeys db ++ [row])
                             (hostkeys_auto_increment db + 1) db).
Proof.
  intros (Hkeys & Hids & Hbound & Hnonneg) Hfresh Hid.
  unfold hostkeys_wf, key_unique.
  cbn [hostkeys hostkeys_auto_increment with_hostkeys].
  rewrite !fmap_app. cbn. split; [| split; [| split]].
  - apply NoDup_app. repeat split; [done | | apply NoDup_singleton].
    intros x Hx Hx'. apply list_elem_of_singleton in Hx' as ->. by apply Hfresh.
  - apply NoDup_app. repeat split; [done | | apply NoDup_singleton].
    intros x Hx Hx'. apply list_elem_of_singleton in Hx' as ->.
    apply list_elem_of_fmap in Hx as (r & Hr & Hin).
    specialize (Hbound r Hin). lia.
  - intros r Hin. apply elem_of_app in Hin as [Hin | Hin].
    + specialize (Hbound r Hin). lia.
    + apply list_elem_of_singleton in Hin as ->. lia.
  - lia.
Qed.

Lemma mysql_upsert_preserves_wf (h k t k' : string) (db : DB) :
  hostkeys_wf db → hostkeys_wf (snd (mysql_upsert_hostkey h k t k' db)).
Proof.
  intros Hwf. unfold mysql_upsert_hostkey.
  destruct (List.find (same_key h t) (hostkeys db)) as [r|] eqn:Hfind.
  - case_bool_decide; [done |]. cbn [snd].
    destruct Hwf as (Hkeys & Hids & Hbound & Hnonneg).
    unfold hostkeys_wf, key_unique.
    cbn [hostkeys hostkeys_auto_increment with_hostkeys].
    rewrite fmap_key_set_pubkey, fmap_id_set_pubkey.
    split; [done |]. split; [done |]. split; [| done].
    intros x Hx. apply list_elem_of_In, in_map_iff in Hx as (y & <- & Hy).
    apply list_elem_of_In in Hy. specialize (Hbound y Hy).
    by destruct (same_key h t y).
  - cbn [snd]. apply hostkeys_wf_append; [done | | done].
    by apply find_none_key.
Qed.

Lemma sqlite_replace_preserves_wf (h k : string) (db : DB) :
  hostkeys_wf db → hostkeys_wf (snd (sqlite_replace_hostkey h k db)).
Proof.
  intros (Hkeys & Hids & Hbound & Hnonneg).
  unfold sqlite_replace_hostkey, hostkeys_wf, key_unique.
  cbn [snd hostkeys hostkeys_auto_increment with_hostkeys].
  rewrite !fmap_app. cbn.
  assert (∀ r, r ∈ List.filter (λ x, negb (same_key h cert_type_default x))
                               (hostkeys db) →
               r ∈ hostkeys db ∧ same_key h cert_type_default r = false)
    as Hfilter.
  { intros r Hr. apply list_elem_of_In, filter_In in Hr as [Hr Hneg].
    split; [by apply list_elem_of_In | by apply negb_true_iff]. }
  split; [| split; [| split]].
  - apply NoDup_app. repeat split;
      [by apply NoDup_fmap_filter | | apply NoDup_singleton].
    intros x Hx Hx'. apply list_elem_of_singleton in Hx' as ->.
    apply list_elem_of_fmap in Hx as (r & Hkey & Hr).
    destruct (Hfilter r Hr) as [_ Hfalse].
    apply not_true_iff_false in Hfalse. apply Hfalse.
    by apply same_key_true.
  - apply NoDup_app. repeat split;
      [by apply NoDup_fmap_filter | | apply NoDup_singleton].
    intros x Hx Hx'. apply list_elem_of_singleton in Hx' as ->.
    apply list_elem_of_fmap in Hx as (r & Hid & Hr).
    destruct (Hfilter r Hr) as [Hin _]. specialize (Hbound r Hin). lia.
  - intros r Hin. apply elem_of_app in Hin as [Hin | Hin].
    + destruct (Hfilter r Hin) as [Hin' _]. specialize (Hbound r Hin'). lia.
    + apply list_elem_of_singleton in Hin as ->. cbn. lia.
  - lia.
Qed.

Lemma run_statement_preserves_wf (st : statement) (args : list string)
    (db : DB) :
  hostkeys_wf db → hostkeys_wf (snd (run_statement st args db)).
Proof.
  intros Hwf.
  destruct st; cbn [run_statement];
    repeat (match goal with
            | |- context [match ?l with [] => _ | _ :: _ => _ end] =>
                destruct l
            end);
    first
      [ exact Hwf
      | by apply (hostkeys_wf_same db)
      | match goal with
        | |- context [mysql_upsert_hostkey ?a ?b ?c ?d db] =>
            pose proof (mysql_upsert_preserves_wf a b c d db Hwf);
            by destruct (mysql_upsert_hostkey a b c d db)
        | |- context [sqlite_replace_hostkey ?a ?b db] =>
            pose proof (sqlite_replace_preserves_wf a b db Hwf);
            by destruct (sqlite_replace_hostkey a b db)
        end ].
Qed.

Lemma Exec_preserves_wf (query : string) (args : list string) (db : DB) :
  hostkeys_wf db → hostkeys_wf (snd (Exec query args db)).
Proof.
  intros Hwf.
  assert (hostkeys_wf (with_faults (tail (db_faults db)) db)) as Hwf0
    by (by apply (hostkeys_wf_same db)).
  destruct (Exec_cases query args db) as [[e ->] | (_ & st & _ & _ & ->)];
    [done |].
  by apply run_statement_preserves_wf.
Qed.

End wf_facts.

(** ** More on the storage back end *)

Section storage_more.
Context `{Libraries}.
Import storage.

Lemma uint64_small (x : Z) : 0 ≤ x < 2 ^ 64 → uint64 x = x.
Proof. intros Hx. unfold uint64. by apply Z.mod_small. Qed.

Lemma mysql_upsert_keeps_mappings (h k t k' : string) (db : DB) :
  github_user_mappings (snd (mysql_upsert_hostkey h k t k' db))
  = github_user_mappings db.
Proof.
  unfold mysql_upsert_hostkey.
  destruct (List.find _ _); [case_bool_decide |]; done.
Qed.

Lemma parse_record_issuance :
  mysql_parse stmt_record_issuance = Some UpsertHostkeyTyped
  ∧ sqlite_parse stmt_record_issuance = None.
Proof. split; by vm_compute. Qed.

(** What [RecordIssuance] does to the database is one round trip of its
    statement, whatever the outcome. *)
Lemma RecordIssuance_round_trip (certType : Z) (typ principal : string)
    (pubkey : ssh.PublicKey) (db : DB) :
  certTypeToMySQL certType = Ok typ →
  snd (RecordIssuance certType principal pubkey db)
  = snd (Exec stmt_record_issuance
           [principal; MarshalAuthorizedKey pubkey; typ;
            MarshalAuthorizedKey pubkey] db).
Proof.
  intros Htyp. unfold RecordIssuance. rewrite Htyp.
  by destruct (Exec _ _ db) as [[res|e] db1].
Qed.

(** X1.  The first enrollment of a principal on the MySQL back end appends
    one row and returns its id as the serial; no row that was already there
    has that id. *)
Theorem RecordIssuance_first_enrollment (certType : Z)
    (typ principal : string) (key : ssh.PublicKey) (db : DB) :
  db_driver db = MySQLDriver →
  db_faults db = [] →
  certTypeToMySQL certType = Ok typ →
  hostkeys_wf db →
  hostkeys_auto_increment db < 2 ^ 64 →
  (principal, typ) ∉ hostkey_key <$> hostkeys db →
  ∃ db',
    RecordIssuance certType principal key db
    = (Ok (hostkeys_auto_increment db), db')
    ∧ hostkeys db'
      = hostkeys db
        ++ [{| hk_id := hostkeys_auto_increment db;
               hk_hostname := principal;
               hk_pubkey := MarshalAuthorizedKey key;
               hk_cert_type := typ |}]
    ∧ (∀ r, r ∈ hostkeys db → hk_id r ≠ hostkeys_auto_increment db)
    ∧ github_user_mappings db' = github_user_mappings db.
Proof.
  intros Hdrv Hf Htyp (_ & _ & Hbound & Hnonneg) Hmax Habsent.
  apply find_absent_key in Habsent.
  destruct (mysql_upsert_insert principal (MarshalAuthorizedKey key) typ
              (MarshalAuthorizedKey key) db Habsent) as [Hrun _].
  rewrite (RecordIssuance_reaches certType typ) by done.
  rewrite Hrun. cbn [fst snd insertId]. rewrite uint64_small by lia.
  eexists. split; [reflexivity |]. split; [done |]. split; [| done].
  intros r Hr. specialize (Hbound r Hr). lia.
Qed.

(** Every round trip keeps [hostkeys] well formed, so [RecordIssuance]
    does. *)
Lemma RecordIssuance_preserves_wf (certType : Z) (principal : string)
    (pubkey : ssh.PublicKey) (db : DB) :
  hostkeys_wf db →
  hostkeys_wf (snd (RecordIssuance certType principal pubkey db)).
Proof.
  intros Hwf. destruct (certTypeToMySQL certType) as [typ|e] eqn:Htyp.
  - rewrite (RecordIssuance_round_trip certType typ) by done.
    by apply Exec_preserves_wf.
  - unfold RecordIssuance. by rewrite Htyp.
Qed.

Lemma mysql_upsert_other_key (h0 k t0 k' h t : string) (db : DB) :
  (h, t) ≠ (h0, t0) →
  List.filter (same_key h t)
              (hostkeys (snd (mysql_upsert_hostkey h0 k t0 k' db)))
  = List.filter (same_key h t) (hostkeys db).
Proof.
  intros Hne.
  assert (∀ x, same_key h0 t0 x = true → same_key h t x = false) as Hother.
  { intros x Hx. apply not_true_iff_false. intros Hx'.
    apply same_key_true in Hx, Hx'. congruence. }
  unfold mysql_upsert_hostkey.
  destruct (List.find _ _) as [r|]; [case_bool_decide; [done |] |];
    cbn [snd hostkeys with_hostkeys].
  - induction (hostkeys db) as [|x rows IH]; [done |]. cbn.
    destruct (same_key h0 t0 x) eqn:Hkey.
    + change (same_key h t (set_pubkey k' x)) with (same_key h t x).
      by rewrite (Hother x Hkey).
    + by rewrite IH.
  - rewrite List.filter_app. cbn.
    rewrite Hother; [by rewrite app_nil_r |].
    unfold same_key. cbn. by rewrite !bool_decide_eq_true_2.
Qed.

(** X3.  Whatever the outcome, [RecordIssuance] leaves the rows of every
    other principal, and of the same principal under another certificate
    type, as they were - same id, same key - and it never changes
    [github_user_mappings]: the one row it can write is that of the
    principal and type it was called with. *)
Theorem RecordIssuance_touches_only_its_row (certType : Z)
    (principal : string) (pubkey : ssh.PublicKey) (db : DB)
    (h t : string) :
  h ≠ principal ∨ certTypeToMySQL certType ≠ Ok t →
  let out := RecordIssuance certType principal pubkey db in
  List.filter (same_key h t) (hostkeys (snd out))
  = List.filter (same_key h t) (hostkeys db)
  ∧ github_user_mappings (snd out) = github_user_mappings db.
Proof.
  intros Hother out. unfold out, RecordIssuance.
  destruct (certTypeToMySQL certType) as [typ|e] eqn:Htyp; [| done].
  assert ((h, t) ≠ (principal, typ)) as Hne.
  { intros [= -> ->]. by destruct Hother. }
  match goal with
  | |- context [Exec ?q ?args db] =>
      destruct (Exec_cases q args db)
        as [[e ->] | (_ & st & Hparse & _ & ->)]
  end; [done |].
  destruct (db_driver db) eqn:Hdrv.
  { by rewrite (proj2 parse_record_issuance) in Hparse. }
  rewrite (proj1 parse_record_issuance) in Hparse. injection Hparse as <-.
  cbn [run_statement].
  match goal with
  | |- context [mysql_upsert_hostkey ?a ?b ?c ?d ?db0] =>
      pose proof (mysql_upsert_keeps_mappings a b c d db0) as Hmap;
      pose proof (mysql_upsert_other_key a b c d h t db0 Hne) as Hrows;
      destruct (mysql_upsert_hostkey a b c d db0) as [res db1]
  end.
  cbn in *. by split.
Qed.

Lemma QueryHostkeys_healthy (db : DB) :
  db_faults db = [] →
  QueryHostkeys db
  = (({| Rows := Some (hostkey_columns
                         <$> List.filter
                               (λ r, bool_decide (hk_cert_type r = mysqlHostCert))
                               (hostkeys db)) |}, None), db).
Proof.
  intros Hf. unfold QueryHostkeys, Query.
  pose proof (with_faults_same db Hf) as Hsame. rewrite Hf in *.
  cbn [tail] in *. rewrite Hsame.
  by rewrite bool_decide_eq_true_2.
Qed.

Lemma filter_columns (p t : string) (rows : list hostkey) :
  List.filter (λ cols, bool_decide (head cols = Some p))
    (hostkey_columns
       <$> List.filter (λ r, bool_decide (hk_cert_type r = t)) rows)
  = hostkey_columns <$> List.filter (same_key p t) rows.
Proof.
  induction rows as [|x rows IH]; [done |]. cbn. unfold same_key at 1.
  destruct (bool_decide (hk_cert_type x = t)) eqn:Ht; cbn.
  - rewrite IH, andb_true_r.
    destruct (decide (hk_hostname x = p)) as [Hp | Hp].
    + rewrite !bool_decide_eq_true_2 by (by rewrite ?Hp). done.
    + rewrite !bool_decide_eq_false_2; [done | done |].
      intros [= Heq]. done.
  - by rewrite IH, andb_false_r.
Qed.

(** X4.  After a host issuance on the MySQL back end, [QueryHostkeys] lists
    the principal exactly once, with the key just submitted - never an
    older key beside it. *)
Theorem QueryHostkeys_after_RecordIssuance (principal : string)
    (key : ssh.PublicKey) (db : DB) :
  db_driver db = MySQLDriver →
  db_faults db = [] →
  key_unique (hostkeys db) →
  ∃ serial d1 rows,
    RecordIssuance ssh.HostCert principal key db = (Ok serial, d1)
    ∧ QueryHostkeys d1 = (({| Rows := Some rows |}, None), d1)
    ∧ List.filter (λ cols, bool_decide (head cols = Some principal)) rows
      = [[principal; MarshalAuthorizedKey key]].
Proof.
  intros Hdrv Hf Huniq.
  destruct (mysql_upsert_idempotent principal (MarshalAuthorizedKey key)
              mysqlHostCert db Huniq) as [_ (row & Hrow & Hhost & Hkey)].
  destruct (mysql_upsert_keeps_connection principal
              (MarshalAuthorizedKey key) mysqlHostCert
              (MarshalAuthorizedKey key) db) as [_ Hf1].
  eexists _, _, _. split.
  { by apply (RecordIssuance_reaches ssh.HostCert mysqlHostCert). }
  split.
  { apply QueryHostkeys_healthy. congruence. }
  rewrite filter_columns, Hrow. cbn. unfold hostkey_columns.
  by rewrite Hhost, Hkey.
Qed.

Lemma mysql_upsert_other_type (h k t k' t' : string) (db : DB) :
  t ≠ t' →
  List.filter (λ r, bool_decide (hk_cert_type r = t'))
              (hostkeys (snd (mysql_upsert_hostkey h k t k' db)))
  = List.filter (λ r, bool_decide (hk_cert_type r = t')) (hostkeys db).
Proof.
  intros Hne. unfold mysql_upsert_hostkey.
  destruct (List.find _ _) as [r|]; [case_bool_decide; [done |] |];
    cbn [snd hostkeys with_hostkeys].
  - induction (hostkeys db) as [|x rows IH]; [done |]. cbn.
    destruct (same_key h t x) eqn:Hkey.
    + apply same_key_true in Hkey. injection Hkey as _ Htype.
      cbn [hk_cert_type set_pubkey]. rewrite Htype.
      by rewrite !bool_decide_eq_false_2 by done.
    + by rewrite IH.
  - rewrite List.filter_app. cbn.
    rewrite bool_decide_eq_false_2 by done. by rewrite app_nil_r.
Qed.

(** X5.  A user-certificate issuance, whatever the principal, leaves what
    [QueryHostkeys] returns unchanged: host rows and user rows of one
    principal are kept apart. *)
Theorem QueryHostkeys_ignores_user_issuance (principal : string)
    (key : ssh.PublicKey) (db : DB) :
  db_driver db = MySQLDriver →
  db_faults db = [] →
  fst (QueryHostkeys (snd (RecordIssuance ssh.UserCert principal key db)))
  = fst (QueryHostkeys db).
Proof.
  intros Hdrv Hf.
  rewrite (RecordIssuance_reaches ssh.UserCert mysqlUserCert) by done.
  cbn [snd].
  destruct (mysql_upsert_keeps_connection principal
              (MarshalAuthorizedKey key) mysqlUserCert
              (MarshalAuthorizedKey key) db) as [_ Hf1].
  rewrite !QueryHostkeys_healthy by congruence. cbn [fst].
  by rewrite mysql_upsert_other_type.
Qed.

End storage_more.

(** ** More on the identity mapping *)

Section mapping_more.
Import storage.

Lemma with_mappings_twice (m m' : gmap string string) (db : DB) :
  with_mappings m (with_mappings m' db) = with_mappings m db.
Proof. done. Qed.

Lemma with_faults_nil (db : DB) :
  db_faults db = [] → with_faults [] db = db.
Proof. intros Hf. destruct db; cbn in *. by subst. Qed.

(** Both round trips reach a MySQL server: the table becomes the mapping. *)
Lemma RecordGitHubMapping_in_order_ok (entries : list (string * string))
    (mapping : gmap string string) (db : DB) :
  visits entries mapping →
  entries ≠ [] →
  db_driver db = MySQLDriver →
  db_faults db = [] →
  RecordGitHubMapping_in_order entries db = (None, with_mappings mapping db).
Proof.
  intros Hv Hne Hdrv Hf. unfold RecordGitHubMapping_in_order.
  rewrite prepare_batch_eq.
  cbn [deleteEntries deleteValues insertEntries insertValues].
  destruct (length entries) as [|n] eqn:Hn.
  { destruct entries; [done | discriminate Hn]. }
  rewrite (Exec_healthy _ _ db (DeleteMappingsNotIn (S n)));
    [| unfold healthy; by rewrite Hf
     | by rewrite Hdrv, mysql_parse_delete
     | by rewrite length_fmap ].
  rewrite Hf. cbn [tail]. rewrite (with_faults_nil db Hf).
  cbn [run_statement]. unfold delete_mappings_not_in.
  match goal with
  | |- context [Exec ?q ?args ?d] =>
      rewrite (Exec_healthy q args d (ReplaceMappings (S n)));
        [| unfold healthy; cbn; by rewrite Hf
         | cbn [db_driver with_mappings]; by rewrite Hdrv, mysql_parse_insert
         | rewrite length_flat_pairs, Hn; done ]
  end.
  cbn [db_faults with_mappings]. rewrite Hf. cbn [tail run_statement].
  rewrite with_faults_nil by done.
  cbn [github_user_mappings with_mappings].
  rewrite with_mappings_twice, replace_mappings_pairs.
  by rewrite (delete_then_replace entries mapping).
Qed.

(** X6.  With a non-empty mapping and both round trips reaching a MySQL
    server, [RecordGitHubMapping] returns nil and leaves the table equal to
    the mapping, whatever was there and in whatever order the loop visits
    the map; [hostkeys] is untouched, and running it again with the same
    mapping changes nothing. *)
Theorem RecordGitHubMapping_replaces_table (entries : list (string * string))
    (mapping : gmap string string) (db : DB) :
  visits entries mapping →
  entries ≠ [] →
  db_driver db = MySQLDriver →
  db_faults db = [] →
  ∃ db',
    RecordGitHubMapping_in_order entries db = (None, db')
    ∧ github_user_mappings db' = mapping
    ∧ hostkeys db' = hostkeys db
    ∧ (∀ entries', visits entries' mapping →
         RecordGitHubMapping_in_order entries' db' = (None, db')).
Proof.
  intros Hv Hne Hdrv Hf. exists (with_mappings mapping db).
  split; [by apply RecordGitHubMapping_in_order_ok |].
  split; [done |]. split; [done |].
  intros entries' Hv'.
  assert (entries' ≠ []) as Hne'.
  { intros ->. unfold visits in Hv, Hv'. symmetry in Hv'.
    apply Permutation_nil_r in Hv'. rewrite Hv' in Hv.
    by apply Permutation_nil_r in Hv. }
  by rewrite (RecordGitHubMapping_in_order_ok entries' mapping).
Qed.

Lemma QueryGitHubMapping_healthy (ssoIdentity : string) (db : DB) :
  db_faults db = [] →
  QueryGitHubMapping ssoIdentity db
  = (match github_user_mappings db !! ssoIdentity with
     | Some githubUser => Ok githubUser
     | None => Err ErrNoRows
     end, db).
Proof.
  intros Hf. unfold QueryGitHubMapping, Query. rewrite Hf. cbn [tail].
  rewrite (with_faults_nil db Hf).
  rewrite bool_decide_eq_false_2 by (by vm_compute).
  rewrite bool_decide_eq_true_2 by done.
  by destruct (github_user_mappings db !! ssoIdentity).
Qed.

(** X7.  Round trip: after a successful [RecordGitHubMapping],
    [QueryGitHubMapping] returns the user name the mapping gives to an
    identity, and [sql.ErrNoRows] for an identity the mapping does not
    name - also one that was in the table before. *)
Theorem QueryGitHubMapping_after_record (entries : list (string * string))
    (mapping : gmap string string) (db : DB) (ssoIdentity : string) :
  visits entries mapping →
  entries ≠ [] →
  db_driver db = MySQLDriver →
  db_faults db = [] →
  fst (QueryGitHubMapping ssoIdentity
         (snd (RecordGitHubMapping_in_order entries db)))
  = match mapping !! ssoIdentity with
    | Some githubUser => Ok githubUser
    | None => Err ErrNoRows
    end.
Proof.
  intros Hv Hne Hdrv Hf.
  rewrite (RecordGitHubMapping_in_order_ok entries mapping) by done.
  cbn [snd]. by rewrite QueryGitHubMapping_healthy.
Qed.

(** X8.  After the loop over a non-empty mapping of [n] entries, the delete
    statement has [n] placeholders and the [n] identities as arguments, the
    insert statement [n] groups and the [2n] values as arguments; the MySQL
    reader accepts both. *)
Theorem prepare_batch_statements (entries : list (string * string)) :
  entries ≠ [] →
  let b := prepare_batch entries in
  let n := length entries in
  mysql_parse (delete_stmt_of (deleteEntries b)) = Some (DeleteMappingsNotIn n)
  ∧ deleteValues b = entries.*1
  ∧ length (deleteValues b) = placeholders (DeleteMappingsNotIn n)
  ∧ mysql_parse (insert_stmt_of (insertEntries b)) = Some (ReplaceMappings n)
  ∧ insertValues b = flat_map (λ kv, [kv.1; kv.2]) entries
  ∧ length (insertValues b) = placeholders (ReplaceMappings n).
Proof.
  intros Hne b n. unfold b, n. rewrite prepare_batch_eq.
  cbn [deleteEntries deleteValues insertEntries insertValues placeholders].
  rewrite mysql_parse_delete, mysql_parse_insert, length_fmap,
    length_flat_pairs.
  destruct entries; [done |]. cbn [length]. repeat split.
Qed.

End mapping_more.

(** ** More on the gate, the signer and the handler *)

Section handler_more.
Context `{Libraries}.
Import server.

(** X9.  [clientHostnameMatches] is true exactly when the leaf certificate
    of the first verified chain verifies the hostname - no other
    certificate or chain is consulted - and then [clientAuthenticated] is
    true as well. *)
Theorem clientHostnameMatches_true (hostname : string) (r : Request) :
  (clientHostnameMatches hostname r = Returns true
   ↔ ∃ conn leaf rest chains,
       TLS r = Some conn
       ∧ tls.VerifiedChains conn = (leaf :: rest) :: chains
       ∧ x509_VerifyHostname leaf hostname = None)
  ∧ (clientHostnameMatches hostname r = Returns true →
     clientAuthenticated r = Returns true).
Proof.
  assert (clientHostnameMatches hostname r = Returns true →
          ∃ conn leaf rest chains,
            TLS r = Some conn
            ∧ tls.VerifiedChains conn = (leaf :: rest) :: chains
            ∧ x509_VerifyHostname leaf hostname = None) as Hinv.
  { unfold clientHostnameMatches.
    destruct (TLS r) as [conn|]; [| done].
    destruct (tls.VerifiedChains conn) as [|[|leaf rest] chains] eqn:Hchains;
      [done | done |].
    case_bool_decide as Hverify; [| done].
    intros _. by exists conn, leaf, rest, chains. }
  split; [split; [exact Hinv |] |].
  - intros (conn & leaf & rest & chains & Hconn & Hchains & Hverify).
    unfold clientHostnameMatches. rewrite Hconn, Hchains.
    by rewrite bool_decide_eq_true_2.
  - intros Hmatch.
    destruct (Hinv Hmatch) as (conn & leaf & rest & chains & Hconn & Hchains & _).
    rewrite (clientAuthenticated_chain r conn Hconn), Hchains.
    by rewrite bool_decide_eq_true_2.
Qed.

(** [signHost] changes nothing of the world but the entropy source. *)
Lemma signHost_frame (c : context) (hostname : string) (serial : Z)
    (pubkey : ssh.PublicKey) (w : World) :
  ∃ rand', snd (signHost c hostname serial pubkey w) = set_rand rand' w.
Proof.
  unfold signHost.
  destruct (ReadFull 32 (w_rand w)) as [[nonce|e] rand1]; [| by eexists].
  destruct (time_ParseDuration _) as [week|e]; [| by eexists].
  cbn [w_rand set_rand].
  destruct (SignCert _ _ _) as [[signed|e] rand2]; by eexists.
Qed.

Lemma signHost_short (c : context) (hostname : string) (serial : Z)
    (pubkey : ssh.PublicKey) (w : World) :
  (length (w_rand w) < 64)%nat →
  ∃ e w', signHost c hostname serial pubkey w = (Err e, w').
Proof.
  intros Hshort.
  destruct (signHost c hostname serial pubkey w) as [[cert|e] w'] eqn:Hrun;
    [| by eexists _, _].
  apply signHost_inv in Hrun as (Hlen & _). lia.
Qed.

(** What [SignCert] leaves and what it sets. *)
Lemma SignCert_signature (c c' : sshcert.Certificate)
    (rand rand' : list byte) (authority : sshcert.Signer) :
  sshcert.Signature c = None →
  SignCert c rand authority = (Ok c', rand') →
  sshcert.ValidAfter c' = sshcert.ValidAfter c
  ∧ sshcert.ValidBefore c' = sshcert.ValidBefore c
  ∧ sshcert.SignatureKey c' = Some (sshcert.PublicKey authority)
  ∧ ∃ sig,
      sshcert.Signature c' = Some sig
      ∧ sshcert.Sign authority (drop 32 rand)
          (cert_bytesForSigning (without_signature c')) = (Ok sig, rand').
Proof.
  intros Hnone. unfold SignCert.
  destruct (ReadFull 32 rand) as [[nonce|e] rand1] eqn:Hread; [| done].
  apply ReadFull_inv in Hread as (_ & -> & -> & _).
  destruct (sshcert.Sign _ _ _) as [[sig|e] rand2] eqn:Hsign; [| done].
  intros [= <- <-]. repeat split. exists sig. split; [done |].
  unfold without_signature. cbn. by rewrite <- Hnone.
Qed.

Lemma signHost_inv_signed (c : context) (hostname : string) (serial : Z)
    (pubkey : ssh.PublicKey) (w w' : World) (cert : sshcert.Certificate) :
  signHost c hostname serial pubkey w = (Ok cert, w') →
  ∃ week,
    time_ParseDuration (CertDuration (conf c)) = Ok week
    ∧ sshcert.ValidAfter cert = uint64 (Unix (w_now w))
    ∧ sshcert.ValidBefore cert = uint64 (Unix (w_now w + week))
    ∧ sshcert.SignatureKey cert = Some (sshcert.PublicKey (signer c))
    ∧ ∃ sig,
        sshcert.Signature cert = Some sig
        ∧ sshcert.Sign (signer c) (drop 64 (w_rand w))
            (cert_bytesForSigning (without_signature cert))
          = (Ok sig, w_rand w').
Proof.
  unfold signHost.
  destruct (ReadFull 32 (w_rand w)) as [[nonce|e] rand1] eqn:Hread; [| done].
  apply ReadFull_inv in Hread as (_ & -> & -> & _).
  destruct (time_ParseDuration _) as [week|e]; [| done].
  cbn [w_rand set_rand w_now].
  destruct (SignCert _ _ _) as [[signed|e] rand2] eqn:Hsign; [| done].
  intros [= <- <-].
  apply SignCert_signature in Hsign as (Hafter & Hbefore & Hkey & sig & Hsig & Hsign);
    [| done].
  exists week. split; [done |]. rewrite Hafter, Hbefore. cbn.
  split; [done |]. split; [done |]. split; [done |].
  exists sig. split; [done |]. by rewrite drop_drop in Hsign.
Qed.

(** X10.  The validity window of a certificate that [signHost] returns:
    it starts at the second of [time.Now()] and ends at the second of
    [time.Now()] plus the configured duration.  A duration of whole seconds
    gives a window of exactly that many seconds; a duration that is not
    positive is accepted and gives a window that is empty. *)
Theorem signHost_validity_window (c : context) (hostname : string)
    (serial : Z) (pubkey : ssh.PublicKey) (w w' : World)
    (cert : sshcert.Certificate) (week : Z) :
  signHost c hostname serial pubkey w = (Ok cert, w') →
  time_ParseDuration (CertDuration (conf c)) = Ok week →
  0 ≤ w_now w < 2 ^ 64 * 1000000000 →
  0 ≤ w_now w + week < 2 ^ 64 * 1000000000 →
  sshcert.ValidAfter cert = w_now w / 1000000000
  ∧ sshcert.ValidBefore cert = (w_now w + week) / 1000000000
  ∧ (0 ≤ week → sshcert.ValidAfter cert ≤ sshcert.ValidBefore cert)
  ∧ (week ≤ 0 → sshcert.ValidBefore cert ≤ sshcert.ValidAfter cert)
  ∧ (∀ seconds, week = seconds * 1000000000 →
       sshcert.ValidBefore cert = sshcert.ValidAfter cert + seconds).
Proof.
  intros Hrun Hweek Hnow Hend.
  apply signHost_inv_signed in Hrun as (week' & Hweek' & Hafter & Hbefore & _).
  rewrite Hweek in Hweek'. injection Hweek' as <-.
  assert (∀ t, 0 ≤ t < 2 ^ 64 * 1000000000 → uint64 (Unix t) = t / 1000000000)
    as Hunix.
  { intros t Ht. unfold uint64, Unix. apply Z.mod_small. split.
    - apply Z.div_pos; lia.
    - apply Z.div_lt_upper_bound; lia. }
  rewrite Hunix in Hafter, Hbefore by done.
  rewrite Hafter, Hbefore. repeat split.
  - intros Hpos. apply Z.div_le_mono; lia.
  - intros Hneg. apply Z.div_le_mono; lia.
  - intros seconds ->. by rewrite Z.div_add.
Qed.

(** X11.  A certificate that [signHost] returns is a host certificate for
    the given key, with the given serial and the hostname as key id; its
    signature key is the signer's public key, and its signature is what the
    signer returned for the certificate as returned, less the signature. *)
Theorem signHost_certificate (c : context) (hostname : string)
    (serial : Z) (pubkey : ssh.PublicKey) (w w' : World)
    (cert : sshcert.Certificate) :
  signHost c hostname serial pubkey w = (Ok cert, w') →
  sshcert.Serial cert = serial
  ∧ sshcert.KeyId cert = hostname
  ∧ sshcert.CertType cert = 2
  ∧ sshcert.Key cert = pubkey
  ∧ sshcert.SignatureKey cert = Some (sshcert.PublicKey (signer c))
  ∧ ∃ sig,
      sshcert.Signature cert = Some sig
      ∧ sshcert.Sign (signer c) (drop 64 (w_rand w))
          (cert_bytesForSigning (without_signature cert))
        = (Ok sig, w_rand w').
Proof.
  intros Hrun.
  pose proof (signHost_inv _ _ _ _ _ _ _ Hrun)
    as (_ & _ & _ & Hserial & Hid & Htype & Hkey).
  apply signHost_inv_signed in Hrun as (_ & _ & _ & _ & Hsigkey & Hsig).
  by repeat split.
Qed.

(** X12.  A hostname that is exactly the configured suffix gets the empty
    string as its second principal: the stripped alias is not checked for
    being empty. *)
Theorem signHost_empty_principal (c : context) (serial : Z)
    (pubkey : ssh.PublicKey) (w w' : World) (cert : sshcert.Certificate) :
  StripSuffix (conf c) ≠ EmptyString →
  signHost c (StripSuffix (conf c)) serial pubkey w = (Ok cert, w') →
  sshcert.ValidPrincipals cert
  = StripSuffix (conf c) :: EmptyString
      :: default [] (Aliases (conf c) !! StripSuffix (conf c)).
Proof.
  intros Hne Hrun. apply signHost_inv in Hrun as (_ & _ & -> & _).
  by apply (principals_of_stripped c EmptyString).
Qed.

End handler_more.

Section enroll_more.
Context `{Libraries}.
Import server.

Lemma gate_passes (hostname : string) (r : Request)
    (conn : tls.ConnectionState) (leaf : x509.Certificate)
    (rest : list x509.Certificate) (chains : list (list x509.Certificate)) :
  TLS r = Some conn →
  tls.VerifiedChains conn = (leaf :: rest) :: chains →
  x509_VerifyHostname leaf hostname = None →
  clientAuthenticated r = Returns true
  ∧ clientHostnameMatches hostname r = Returns true.
Proof.
  intros Hconn Hchains Hverify. split.
  - rewrite (clientAuthenticated_chain r conn Hconn), Hchains.
    by rewrite bool_decide_eq_true_2.
  - unfold clientHostnameMatches. rewrite Hconn, Hchains.
    by rewrite bool_decide_eq_true_2.
Qed.

(** X13.  The successful enrollment.  When the gate passes, the body
    parses, the insert-or-update succeeds, and the signer has its entropy,
    duration and key, [Enroll] answers 200 with the key type,
    [-cert-v01@openssh.com ], and the base64 of the marshalled certificate;
    that certificate has the hostname as key id, the parsed key, the
    principals of [signHost], and as serial the [uint64] of the insert id
    the database reported.  Nothing is logged, and the database is left as
    the insert-or-update left it. *)
Theorem Enroll_success (c : context) (r : Request) (w : World)
    (conn : tls.ConnectionState) (leaf : x509.Certificate)
    (rest : list x509.Certificate) (chains : list (list x509.Certificate))
    (data : string) (pubkey : ssh.PublicKey) (res : sql_Result) (db1 : DB) :
  let hostname := default EmptyString (vars r !! "hostname") in
  TLS r = Some conn →
  tls.VerifiedChains conn = (leaf :: rest) :: chains →
  x509_VerifyHostname leaf hostname = None →
  Body r = Ok data →
  ssh_ParseAuthorizedKey data = Ok pubkey →
  enroll_upsert hostname (strings.TrimLeft data newline) (w_db w)
  = (Ok res, db1) →
  (64 ≤ length (w_rand w))%nat →
  (∃ week, time_ParseDuration (CertDuration (conf c)) = Ok week) →
  (∀ rand bytes, ∃ sig rand',
      sshcert.Sign (signer c) rand bytes = (Ok sig, rand')) →
  ∃ cert w',
    Enroll c r w
    = (Returns {| status := 200;
                  body := (ssh.Type_ pubkey +:+ "-cert-v01@openssh.com ")
                          +:+ base64_EncodeToString (cert_Marshal cert) |},
       w')
    ∧ sshcert.Serial cert = uint64 (insertId res)
    ∧ sshcert.KeyId cert = hostname
    ∧ sshcert.Key cert = pubkey
    ∧ sshcert.ValidPrincipals cert = principals_of c hostname
    ∧ w_db w' = db1
    ∧ w_log w' = w_log w
    ∧ w_body_read w' = true.
Proof.
  intros hostname Hconn Hchains Hverify Hbody Hparse Hupsert Hlen Hweek Hsign.
  destruct (gate_passes hostname r conn leaf rest chains Hconn Hchains Hverify)
    as [Hauth Hmatch].
  unfold Enroll. rewrite Hauth. fold hostname. rewrite Hmatch.
  unfold EnrollHost. rewrite Hbody, Hparse.
  cbn [w_db read_body]. rewrite Hupsert. cbn [LastInsertId].
  set (w1 := set_db db1 (read_body w)).
  destruct (signHost_succeeds c hostname (uint64 (insertId res)) pubkey w1
              Hlen Hweek Hsign) as (cert & w' & Hrun).
  destruct (signHost_frame c hostname (uint64 (insertId res)) pubkey w1)
    as [rand' Hframe].
  rewrite Hrun in Hframe |- *. cbn [snd] in Hframe.
  apply signHost_inv in Hrun as (_ & _ & Hprinc & Hserial & Hid & _ & Hkey).
  exists cert, w'. rewrite Hkey. split; [done |].
  rewrite Hframe. by repeat split.
Qed.

(** X14.  A body that cannot be read, or that does not parse as a public
    key, is answered like an internal error: status 500 with the error text,
    and one log line.  The database and the entropy source are as they
    were. *)
Theorem Enroll_unusable_key (c : context) (r : Request) (w : World)
    (conn : tls.ConnectionState) (leaf : x509.Certificate)
    (rest : list x509.Certificate) (chains : list (list x509.Certificate))
    (e : string) :
  let hostname := default EmptyString (vars r !! "hostname") in
  TLS r = Some conn →
  tls.VerifiedChains conn = (leaf :: rest) :: chains →
  x509_VerifyHostname leaf hostname = None →
  Body r = Err e
  ∨ (∃ data, Body r = Ok data ∧ ssh_ParseAuthorizedKey data = Err e) →
  ∃ w',
    Enroll c r w = (Returns {| status := 500; body := e +:+ newline |}, w')
    ∧ w_db w' = w_db w
    ∧ w_rand w' = w_rand w
    ∧ w_log w' = w_log w ++ ["internal error"].
Proof.
  intros hostname Hconn Hchains Hverify Hbad.
  destruct (gate_passes hostname r conn leaf rest chains Hconn Hchains Hverify)
    as [Hauth Hmatch].
  unfold Enroll. rewrite Hauth. fold hostname. rewrite Hmatch.
  unfold EnrollHost.
  destruct Hbad as [-> | (data & -> & ->)]; by eexists.
Qed.

Lemma mysql_upsert_row_present (h k t : string) (db : DB) :
  ∃ row,
    row ∈ hostkeys (snd (mysql_upsert_hostkey h k t k db))
    ∧ hk_hostname row = h ∧ hk_pubkey row = k ∧ hk_cert_type row = t.
Proof.
  unfold mysql_upsert_hostkey.
  destruct (List.find (same_key h t) (hostkeys db)) as [r|] eqn:Hfind.
  - apply find_some in Hfind as [Hin Hkey].
    apply same_key_true in Hkey. injection Hkey as Hh Ht.
    case_bool_decide as Hsame; cbn [snd].
    + exists r. split; [by apply list_elem_of_In | done].
    + exists (set_pubkey k r). split; [| done].
      cbn [hostkeys with_hostkeys]. apply list_elem_of_In, in_map_iff.
      exists r. split; [| done].
      rewrite (proj2 (same_key_true h t r)); [done |].
      unfold hostkey_key. by rewrite Hh, Ht.
  - cbn [snd hostkeys with_hostkeys]. eexists. split.
    + apply elem_of_app. right. by apply list_elem_of_singleton.
    + done.
Qed.

Lemma parse_enroll_mysql : mysql_parse stmt_enroll_mysql = Some UpsertHostkey.
Proof. by vm_compute. Qed.

(** X15.  The row is written before the certificate is signed, and it stays
    when signing fails: with a MySQL connection that works and fewer than
    64 bytes of entropy, [EnrollHost] returns an error, and the hostname's
    row with the submitted key is in [hostkeys]. *)
Theorem EnrollHost_row_outlives_signing_failure (c : context)
    (hostname data : string) (r : Request) (w : World)
    (pubkey : ssh.PublicKey) :
  Body r = Ok data →
  ssh_ParseAuthorizedKey data = Ok pubkey →
  db_driver (w_db w) = MySQLDriver →
  db_faults (w_db w) = [] →
  (length (w_rand w) < 64)%nat →
  ∃ e w',
    EnrollHost c hostname r w = (Err e, w')
    ∧ ∃ row,
        row ∈ hostkeys (w_db w')
        ∧ hk_hostname row = hostname
        ∧ hk_pubkey row = strings.TrimLeft data newline.
Proof.
  intros Hbody Hparse Hdrv Hf Hshort. unfold EnrollHost.
  rewrite Hbody, Hparse. cbn [w_db read_body].
  unfold enroll_upsert. rewrite Hdrv.
  rewrite (Exec_healthy _ _ (w_db w) UpsertHostkey);
    [| unfold healthy; by rewrite Hf
     | by rewrite Hdrv, parse_enroll_mysql
     | done ].
  rewrite with_faults_same by done. cbn [run_statement].
  destruct (mysql_upsert_row_present hostname (strings.TrimLeft data newline)
              cert_type_default (w_db w)) as (row & Hin & Hhost & Hkey & _).
  destruct (mysql_upsert_hostkey _ _ _ _ (w_db w)) as [res db1].
  cbn [snd LastInsertId] in *.
  set (w1 := set_db db1 (read_body w)).
  destruct (signHost_short c hostname (uint64 (insertId res)) pubkey w1
              Hshort) as (e & w' & Hrun).
  destruct (signHost_frame c hostname (uint64 (insertId res)) pubkey w1)
    as [rand' Hframe].
  rewrite Hrun in Hframe |- *. cbn [snd] in Hframe.
  exists e, w'. split; [done |]. exists row. by rewrite Hframe.
Qed.

(** Likewise for [EnrollHost], on either back end. *)
Lemma EnrollHost_preserves_wf (c : context) (hostname : string)
    (r : Request) (w : World) :
  hostkeys_wf (w_db w) →
  hostkeys_wf (w_db (snd (EnrollHost c hostname r w))).
Proof.
  intros Hwf. unfold EnrollHost.
  destruct (Body r) as [data|e]; [| done].
  destruct (ssh_ParseAuthorizedKey data) as [pubkey|e]; [| done].
  cbn [w_db read_body].
  assert (hostkeys_wf
            (snd (enroll_upsert hostname (strings.TrimLeft data newline)
                    (w_db w)))) as Hwf1.
  { unfold enroll_upsert. destruct (db_driver (w_db w));
      by apply Exec_preserves_wf. }
  destruct (enroll_upsert _ _ (w_db w)) as [[res|e] db1]; [| done].
  cbn [snd LastInsertId] in *.
  match goal with
  | |- context [signHost ?a ?b ?s ?k ?w1] =>
      destruct (signHost_frame a b s k w1) as [rand' Hframe];
      destruct (signHost a b s k w1) as [[cert|e] w']
  end; cbn [snd] in *; by rewrite Hframe.
Qed.

End enroll_more.

Lemma hostkeys_wf_empty (db : DB) :
  hostkeys db = [] → 0 ≤ hostkeys_auto_increment db → hostkeys_wf db.
Proof.
  intros Hrows Hnonneg. unfold hostkeys_wf, key_unique. rewrite Hrows.
  split; [apply NoDup_nil_2 |]. split; [apply NoDup_nil_2 |].
  split; [| done]. intros r Hr. by apply elem_of_nil in Hr.
Qed.

(** ** The properties above at concrete inputs *)

Lemma RecordIssuance_first_enrollment_witness :
  ∃ db',
    @storage.RecordIssuance sample.libs ssh.HostCert sample.db1 sample.key1
      (sample.empty_db MySQLDriver) = (Ok 1, db')
    ∧ hostkeys db'
      = [{| hk_id := 1; hk_hostname := sample.db1;
            hk_pubkey := sample.authorized_key sample.key1;
            hk_cert_type := mysqlHostCert |}].
Proof.
  destruct (@RecordIssuance_first_enrollment sample.libs ssh.HostCert
              mysqlHostCert sample.db1 sample.key1
              (sample.empty_db MySQLDriver))
    as (db' & Hrun & Hrows & _).
  - reflexivity.
  - reflexivity.
  - reflexivity.
  - apply hostkeys_wf_empty; [reflexivity | cbn; lia].
  - cbn. lia.
  - cbn. apply not_elem_of_nil.
  - exists db'. split; [exact Hrun | exact Hrows].
Defined.

Lemma QueryHostkeys_after_RecordIssuance_witness :
  ∃ serial d1 rows,
    @storage.RecordIssuance sample.libs ssh.HostCert sample.db1 sample.key2
      (snd (@storage.RecordIssuance sample.libs ssh.HostCert sample.db1
              sample.key1 (sample.empty_db MySQLDriver)))
    = (Ok serial, d1)
    ∧ storage.QueryHostkeys d1
      = (({| storage.Rows := Some rows |}, None), d1)
    ∧ List.filter (λ cols, bool_decide (head cols = Some sample.db1)) rows
      = [[sample.db1; @MarshalAuthorizedKey sample.libs sample.key2]].
Proof.
  apply (@QueryHostkeys_after_RecordIssuance sample.libs).
  - reflexivity.
  - reflexivity.
  - unfold key_unique. vm_compute. apply NoDup_singleton.
Defined.

Lemma QueryHostkeys_ignores_user_issuance_witness :
  fst (storage.QueryHostkeys
         (snd (@storage.RecordIssuance sample.libs ssh.UserCert "alice"
                 sample.key1 (sample.empty_db MySQLDriver))))
  = fst (storage.QueryHostkeys (sample.empty_db MySQLDriver)).
Proof.
  apply (@QueryHostkeys_ignores_user_issuance sample.libs); reflexivity.
Defined.

Lemma RecordGitHubMapping_replaces_table_witness :
  ∃ db',
    storage.RecordGitHubMapping_in_order
      [("bob", "robert"); ("alice", "al")] sample.mapped_db = (None, db')
    ∧ github_user_mappings db' = <["alice" := "al"]> {["bob" := "robert"]}.
Proof.
  destruct (RecordGitHubMapping_replaces_table
              [("bob", "robert"); ("alice", "al")]
              (<["alice" := "al"]> {["bob" := "robert"]}) sample.mapped_db)
    as (db' & Hrun & Hnew & _).
  - unfold visits. vm_compute. apply perm_swap.
  - done.
  - reflexivity.
  - reflexivity.
  - exists db'. split; [exact Hrun | exact Hnew].
Defined.

Lemma QueryGitHubMapping_after_record_witness :
  fst (storage.QueryGitHubMapping "bob"
         (snd (storage.RecordGitHubMapping_in_order [("alice", "al")]
                 sample.mapped_db)))
  = Err ErrNoRows.
Proof.
  etransitivity.
  - apply (QueryGitHubMapping_after_record [("alice", "al")]
             {["alice" := "al"]} sample.mapped_db "bob").
    + unfold visits. vm_compute. reflexivity.
    + done.
    + reflexivity.
    + reflexivity.
  - by vm_compute.
Defined.

Lemma prepare_batch_statements_witness :
  mysql_parse
    (delete_stmt_of
       (storage.deleteEntries
          (storage.prepare_batch [("bob", "robert"); ("alice", "al")])))
  = Some (DeleteMappingsNotIn 2).
Proof.
  apply (prepare_batch_statements [("bob", "robert"); ("alice", "al")]).
  done.
Defined.

Lemma clientHostnameMatches_true_witness :
  @server.clientAuthenticated
    (sample.request sample.verified sample.db1 (Err "EOF"))
  = Returns true.
Proof.
  destruct (@clientHostnameMatches_true sample.libs sample.db1
              (sample.request sample.verified sample.db1 (Err "EOF")))
    as [Hiff Himp].
  apply Himp, Hiff.
  exists {| tls.VerifiedChains := [[sample.client_cert]] |},
    sample.client_cert, [], [].
  split; [reflexivity |]. split; [reflexivity | by vm_compute].
Defined.

Lemma signHost_validity_window_witness :
  ∃ cert,
    fst (@server.signHost sample.libs sample.ctx sample.db1 1 sample.key1
           (sample.world (sample.empty_db MySQLDriver) 64)) = Ok cert
    ∧ sshcert.ValidAfter cert = 1700000000
    ∧ sshcert.ValidBefore cert = sshcert.ValidAfter cert + 604800.
Proof.
  assert (∃ cert w',
            @server.signHost sample.libs sample.ctx sample.db1 1 sample.key1
              (sample.world (sample.empty_db MySQLDriver) 64) = (Ok cert, w'))
    as (cert & w' & Hrun) by (eexists _, _; vm_compute; reflexivity).
  destruct (@signHost_validity_window sample.libs sample.ctx sample.db1 1
              sample.key1 _ w' cert (168 * 3600 * 1000000000) Hrun)
    as (Hafter & _ & _ & _ & Hseconds).
  - reflexivity.
  - cbn. lia.
  - cbn. lia.
  - exists cert. rewrite Hrun. split; [reflexivity |].
    split; [exact Hafter |]. apply Hseconds. lia.
Defined.

Lemma signHost_certificate_witness :
  ∃ cert,
    fst (@server.signHost sample.libs sample.ctx sample.db1 7 sample.key1
           (sample.world (sample.empty_db MySQLDriver) 64)) = Ok cert
    ∧ sshcert.Serial cert = 7
    ∧ sshcert.SignatureKey cert = Some sample.ca_key.
Proof.
  assert (∃ cert w',
            @server.signHost sample.libs sample.ctx sample.db1 7 sample.key1
              (sample.world (sample.empty_db MySQLDriver) 64) = (Ok cert, w'))
    as (cert & w' & Hrun) by (eexists _, _; vm_compute; reflexivity).
  destruct (@signHost_certificate sample.libs sample.ctx sample.db1 7
              sample.key1 _ w' cert Hrun)
    as (Hserial & _ & _ & _ & Hsigkey & _).
  exists cert. rewrite Hrun. split; [reflexivity |].
  split; [exact Hserial | exact Hsigkey].
Defined.

Lemma signHost_empty_principal_witness :
  ∃ cert,
    fst (@server.signHost sample.libs sample.ctx ".internal.example.com" 1
           sample.key1 (sample.world (sample.empty_db MySQLDriver) 64))
    = Ok cert
    ∧ sshcert.ValidPrincipals cert = [".internal.example.com"; EmptyString].
Proof.
  assert (∃ cert w',
            @server.signHost sample.libs sample.ctx ".internal.example.com" 1
              sample.key1 (sample.world (sample.empty_db MySQLDriver) 64)
            = (Ok cert, w'))
    as (cert & w' & Hrun) by (eexists _, _; vm_compute; reflexivity).
  exists cert. rewrite Hrun. split; [reflexivity |].
  apply (@signHost_empty_principal sample.libs sample.ctx 1 sample.key1
           (sample.world (sample.empty_db MySQLDriver) 64) w' cert).
  - done.
  - exact Hrun.
Defined.

Lemma Enroll_success_witness :
  ∃ cert w',
    @server.Enroll sample.libs sample.ctx
      (sample.request sample.verified sample.db1
         (Ok (sample.authorized_key sample.key1)))
      (sample.world (sample.empty_db MySQLDriver) 64)
    = (Returns
         {| server.status := 200;
            server.body :=
              ("ssh-ed25519" +:+ "-cert-v01@openssh.com ")
              +:+ sample.b64_encode (sample.marshal_fields cert) |}, w')
    ∧ sshcert.Serial cert = 1
    ∧ sshcert.KeyId cert = sample.db1.
Proof.
  pose proof (@Enroll_success sample.libs sample.ctx
                (sample.request sample.verified sample.db1
                   (Ok (sample.authorized_key sample.key1)))
                (sample.world (sample.empty_db MySQLDriver) 64)) as Hthm.
  cbv zeta in Hthm.
  edestruct Hthm as (cert & w' & Hrun & Hserial & Hid & _).
  - reflexivity.
  - reflexivity.
  - by vm_compute.
  - reflexivity.
  - by vm_compute.
  - by vm_compute.
  - vm_compute. lia.
  - eexists. by vm_compute.
  - intros rand bytes. eexists _, _. reflexivity.
  - exists cert, w'. split; [exact Hrun |]. split; [exact Hserial | exact Hid].
Defined.

Lemma Enroll_unusable_key_witness :
  ∃ w',
    @server.Enroll sample.libs sample.ctx
      (sample.request sample.verified sample.db1 (Ok "not a key"))
      (sample.world (sample.empty_db MySQLDriver) 64)
    = (Returns {| server.status := 500;
                  server.body := "ssh: no key found" +:+ newline |}, w')
    ∧ server.w_db w' = sample.empty_db MySQLDriver.
Proof.
  pose proof (@Enroll_unusable_key sample.libs sample.ctx
                (sample.request sample.verified sample.db1 (Ok "not a key"))
                (sample.world (sample.empty_db MySQLDriver) 64)) as Hthm.
  cbv zeta in Hthm.
  edestruct Hthm as (w' & Hrun & Hdb & _).
  - reflexivity.
  - reflexivity.
  - by vm_compute.
  - right. eexists. split; [reflexivity | by vm_compute].
  - exists w'. split; [exact Hrun | exact Hdb].
Defined.

Lemma EnrollHost_row_outlives_signing_failure_witness :
  ∃ e w',
    @server.EnrollHost sample.libs sample.ctx sample.db1
      (sample.request sample.verified sample.db1
         (Ok (sample.authorized_key sample.key1)))
      (sample.world (sample.empty_db MySQLDriver) 40)
    = (Err e, w')
    ∧ ∃ row,
        row ∈ hostkeys (server.w_db w')
        ∧ hk_hostname row = sample.db1
        ∧ hk_pubkey row
          = strings.TrimLeft (sample.authorized_key sample.key1) newline.
Proof.
  apply (@EnrollHost_row_outlives_signing_failure sample.libs sample.ctx
           sample.db1 (sample.authorized_key sample.key1) _ _ sample.key1).
  - reflexivity.
  - by vm_compute.
  - reflexivity.
  - reflexivity.
  - vm_compute. lia.
Defined.

Lemma RecordIssuance_idempotent_witness :
  ∃ s d1,
    @storage.RecordIssuance sample.libs ssh.HostCert sample.db1 sample.key1
      (sample.empty_db MySQLDriver) = (Ok s, d1)
    ∧ @storage.RecordIssuance sample.libs ssh.HostCert sample.db1 sample.key1
        d1 = (Ok 0, d1)
    ∧ ∃ row,
        List.filter (same_key sample.db1 mysqlHostCert) (hostkeys d1) = [row]
        ∧ hk_hostname row = sample.db1
        ∧ hk_pubkey row = @MarshalAuthorizedKey sample.libs sample.key1.
Proof.
  apply (@RecordIssuance_idempotent sample.libs ssh.HostCert mysqlHostCert).
  - reflexivity.
  - reflexivity.
  - reflexivity.
  - unfold key_unique. cbn. apply NoDup_nil_2.
Defined.

Lemma enroll_upsert_mysql_idempotent_witness :
  ∃ res d1,
    server.enroll_upsert sample.db1 "ssh-ed25519 AQIDBAUG"
      (sample.empty_db MySQLDriver) = (Ok res, d1)
    ∧ snd (server.enroll_upsert sample.db1 "ssh-ed25519 AQIDBAUG" d1) = d1
    ∧ ∃ row,
        List.filter (same_key sample.db1 cert_type_default) (hostkeys d1)
        = [row]
        ∧ hk_hostname row = sample.db1
        ∧ hk_pubkey row = "ssh-ed25519 AQIDBAUG".
Proof.
  apply enroll_upsert_mysql_idempotent.
  - reflexivity.
  - reflexivity.
  - unfold key_unique. cbn. apply NoDup_nil_2.
Defined.

(** ** The SQLite branch of [EnrollHost] *)

Section sqlite_branch.
Context `{Libraries}.
Import server.

Lemma parse_enroll_sqlite : sqlite_parse stmt_enroll_sqlite = Some ReplaceHostkey.
Proof. by vm_compute. Qed.

Lemma filter_filter_weaker {A : Type} (P Q : A → bool) (l : list A) :
  (∀ x, P x = true → Q x = true) →
  List.filter P (List.filter Q l) = List.filter P l.
Proof.
  intros Himp. induction l as [|x l IH]; [done |]. cbn.
  destruct (Q x) eqn:HQ; cbn.
  - by rewrite IH.
  - destruct (P x) eqn:HP; [| exact IH].
    rewrite (Himp x HP) in HQ. discriminate HQ.
Qed.

Lemma filter_filter_negb {A : Type} (P : A → bool) (l : list A) :
  List.filter P (List.filter (λ x, negb (P x)) l) = [].
Proof.
  induction l as [|x l IH]; [done |]. cbn.
  destruct (P x) eqn:HP; cbn; [exact IH |]. by rewrite HP.
Qed.

(** After [INSERT OR REPLACE] of a row for [h], the rows of any other
    hostname are as before, and one row answers to [h]: the new one. *)
Lemma sqlite_replace_rows (h k p : string) (db : DB) :
  p ≠ h →
  List.filter (λ row, bool_decide (hk_hostname row = p))
              (hostkeys (snd (sqlite_replace_hostkey h k db)))
  = List.filter (λ row, bool_decide (hk_hostname row = p)) (hostkeys db)
  ∧ ∃ row,
      List.filter (same_key h cert_type_default)
                  (hostkeys (snd (sqlite_replace_hostkey h k db))) = [row]
      ∧ hk_hostname row = h ∧ hk_pubkey row = k.
Proof.
  intros Hne. unfold sqlite_replace_hostkey.
  cbn [snd hostkeys with_hostkeys]. rewrite !List.filter_app. split.
  - cbn. rewrite bool_decide_eq_false_2 by done. rewrite app_nil_r.
    apply filter_filter_weaker. intros x Hx.
    apply bool_decide_eq_true in Hx. apply negb_true_iff.
    apply not_true_iff_false. intros Hkey. apply same_key_true in Hkey.
    injection Hkey as Hh _. congruence.
  - rewrite filter_filter_negb. cbn. unfold same_key at 1. cbn.
    rewrite !bool_decide_eq_true_2 by done. cbn. by eexists.
Qed.

Lemma sqlite_replace_keeps_connection (h k : string) (db : DB) :
  db_driver (snd (sqlite_replace_hostkey h k db)) = db_driver db
  ∧ db_faults (snd (sqlite_replace_hostkey h k db)) = db_faults db.
Proof. done. Qed.

(** On a SQLite connection that works, what [EnrollHost] leaves in the
    database is the [INSERT OR REPLACE] of a row whose [hostname] is the
    key text and whose [pubkey] is the hostname. *)
Lemma EnrollHost_sqlite_db (c : context) (hostname data : string)
    (r : Request) (w : World) (pubkey : ssh.PublicKey) :
  Body r = Ok data →
  ssh_ParseAuthorizedKey data = Ok pubkey →
  db_driver (w_db w) = SQLiteDriver →
  db_faults (w_db w) = [] →
  w_db (snd (EnrollHost c hostname r w))
  = snd (sqlite_replace_hostkey (strings.TrimLeft data newline) hostname
           (w_db w)).
Proof.
  intros Hbody Hparse Hdrv Hf. unfold EnrollHost.
  rewrite Hbody, Hparse. cbn [w_db read_body].
  unfold enroll_upsert. rewrite Hdrv.
  rewrite (Exec_healthy _ _ (w_db w) ReplaceHostkey);
    [| unfold healthy; by rewrite Hf
     | by rewrite Hdrv, parse_enroll_sqlite
     | done ].
  rewrite with_faults_same by done. cbn [run_statement].
  destruct (sqlite_replace_hostkey _ _ (w_db w)) as [res db1].
  cbn [snd LastInsertId].
  match goal with
  | |- context [signHost ?a ?b ?s ?k ?w1] =>
      destruct (signHost_frame a b s k w1) as [rand' Hframe];
      destruct (signHost a b s k w1) as [[cert|e] w']
  end; cbn [snd] in *; by rewrite Hframe.
Qed.

(** C2.  The same enrollment twice on a SQLite connection that works, with
    a body that parses as a public key.  The arguments of the
    [INSERT OR REPLACE] are in the wrong order for its column list: the rows
    keyed by the hostname are what they were before the two calls - none is
    created - and the one row written is keyed by the key text, with the
    hostname in its [pubkey] column. *)
Theorem EnrollHost_sqlite_swapped_columns (c : context)
    (hostname data : string) (r : Request) (w : World)
    (pubkey : ssh.PublicKey) :
  Body r = Ok data →
  ssh_ParseAuthorizedKey data = Ok pubkey →
  db_driver (w_db w) = SQLiteDriver →
  db_faults (w_db w) = [] →
  hostname ≠ strings.TrimLeft data newline →
  let key := strings.TrimLeft data newline in
  let w1 := snd (EnrollHost c hostname r w) in
  let w2 := snd (EnrollHost c hostname r w1) in
  List.filter (λ row, bool_decide (hk_hostname row = hostname))
              (hostkeys (w_db w2))
  = List.filter (λ row, bool_decide (hk_hostname row = hostname))
                (hostkeys (w_db w))
  ∧ ∃ row,
      List.filter (same_key key cert_type_default) (hostkeys (w_db w2))
      = [row]
      ∧ hk_hostname row = key
      ∧ hk_pubkey row = hostname.
Proof.
  intros Hbody Hparse Hdrv Hf Hne key w1 w2.
  assert (w_db w1 = snd (sqlite_replace_hostkey key hostname (w_db w)))
    as Hdb1 by (by apply (EnrollHost_sqlite_db c hostname data r w pubkey)).
  destruct (sqlite_replace_keeps_connection key hostname (w_db w))
    as [Hdrv1 Hf1].
  assert (w_db w2 = snd (sqlite_replace_hostkey key hostname (w_db w1)))
    as Hdb2.
  { apply (EnrollHost_sqlite_db c hostname data r w1 pubkey); [done | done | |];
      rewrite Hdb1; congruence. }
  destruct (sqlite_replace_rows key hostname hostname (w_db w) Hne)
    as [Hkeep1 _].
  destruct (sqlite_replace_rows key hostname hostname (w_db w1) Hne)
    as [Hkeep2 Hrow].
  rewrite Hdb2. split; [| exact Hrow].
  rewrite Hkeep2, Hdb1. exact Hkeep1.
Qed.

End sqlite_branch.

Lemma EnrollHost_sqlite_swapped_columns_witness :
  let r := sample.request sample.verified sample.db1
             (Ok (sample.authorized_key sample.key1)) in
  let w0 := sample.world (sample.empty_db SQLiteDriver) 128 in
  let w1 := snd (@server.EnrollHost sample.libs sample.ctx sample.db1 r w0) in
  let w2 := snd (@server.EnrollHost sample.libs sample.ctx sample.db1 r w1) in
  List.filter (λ row, bool_decide (hk_hostname row = sample.db1))
              (hostkeys (server.w_db w2)) = []
  ∧ ∃ row,
      List.filter
        (same_key (strings.TrimLeft (sample.authorized_key sample.key1) newline)
                  cert_type_default)
        (hostkeys (server.w_db w2)) = [row]
      ∧ hk_hostname row
        = strings.TrimLeft (sample.authorized_key sample.key1) newline
      ∧ hk_pubkey row = sample.db1.
Proof.
  intros r w0 w1 w2.
  pose proof (@EnrollHost_sqlite_swapped_columns sample.libs sample.ctx
                sample.db1 (sample.authorized_key sample.key1) r w0
                sample.key1) as Hthm.
  cbv zeta in Hthm. destruct Hthm as [Hkeep Hrow].
  - reflexivity.
  - by vm_compute.
  - reflexivity.
  - reflexivity.
  - by vm_compute.
  - split; [exact Hkeep | exact Hrow].
Defined.

Lemma RecordIssuance_touches_only_its_row_witness :
  let d1 :=
    snd (@storage.RecordIssuance sample.libs ssh.HostCert sample.db1
           sample.key1 (sample.empty_db MySQLDriver)) in
  List.filter (same_key sample.db1 mysqlHostCert)
    (hostkeys
       (snd (@storage.RecordIssuance sample.libs ssh.HostCert
               "db2.internal.example.com" sample.key2 d1)))
  = List.filter (same_key sample.db1 mysqlHostCert) (hostkeys d1).
Proof.
  intros d1.
  pose proof (@RecordIssuance_touches_only_its_row sample.libs ssh.HostCert
                "db2.internal.example.com" sample.key2 d1 sample.db1
                mysqlHostCert) as Hthm.
  cbv zeta in Hthm. destruct Hthm as [Hrows _].
  - left. by vm_compute.
  - exact Hrows.
Defined.
